(** * nostal-music: the track-resolution pipeline of [src/routes/index.js]

    A shallow embedding of the catalogue pipeline of the playlist route:
    the paginated album fetcher [fetchAllAlbums], the track loader
    [getAllTrackData], the duplicate resolver [removeDuplicateTracks], the
    alternate-version filter [removeAlternateVersions], the chunked playlist
    insertion loop, and the [/callback] and [/create-playlist/:artistId]
    handlers that put them together.

    Modelling choices.
    - A JavaScript string is a [string]: a sequence of code units, here the
      code units 0..255 (Latin-1), on which [toLowerCase] and [trim] are
      written out.
    - A JavaScript [Map] is an association list in insertion order
      ([JsMap]): [set] on a present key overwrites the value where the key
      sits, [set] on an absent key appends, [delete] removes the entry.
    - [track.isrc] is an [option string]: [None] is JavaScript's [undefined],
      which a [Map] accepts as a key like any other.
    - [forEach] with a map that is updated in place is a [fold_left] of a
      step function over the map.
    - The remote catalogue is a function from requests to responses; loops
      that wait for it carry fuel. *)

From Stdlib Require Import ZArith String Ascii Sorted.
From stdpp Require Import base decidable option list strings sorting.

Local Open Scope string_scope.
Local Open Scope list_scope.
Local Open Scope Z_scope.

(** ** JavaScript strings *)

Module JsString.

(** [c] as a code point. *)
Definition code (c : ascii) : N := N_of_ascii c.

(** [String.prototype.toLowerCase] on one code unit below 256: the letters
    A-Z, and the Latin-1 capitals U+00C0..U+00DE except the multiplication
    sign U+00D7, move up by 32. *)
Definition lower_char (c : ascii) : ascii :=
  let n := code c in
  if ((65 <=? n) && (n <=? 90) || (192 <=? n) && (n <=? 214)
      || (216 <=? n) && (n <=? 222))%N
  then ascii_of_N (n + 32) else c.

Fixpoint toLowerCase (s : string) : string :=
  match s with
  | EmptyString => EmptyString
  | String c s' => String (lower_char c) (toLowerCase s')
  end.

(** White space and line terminators of ECMAScript below 256: TAB, LF, VT,
    FF, CR, SP and NBSP. *)
Definition isWhiteSpace (c : ascii) : bool :=
  let n := code c in
  ((9 <=? n) && (n <=? 13) || (n =? 32) || (n =? 160))%N.

Fixpoint trimStart (s : string) : string :=
  match s with
  | EmptyString => EmptyString
  | String c s' => if isWhiteSpace c then trimStart s' else s
  end.

Fixpoint trimEnd (s : string) : string :=
  match s with
  | EmptyString => EmptyString
  | String c s' =>
      match trimEnd s' with
      | EmptyString => if isWhiteSpace c then EmptyString else String c EmptyString
      | r => String c r
      end
  end.

Definition trim (s : string) : string := trimEnd (trimStart s).

(** [s.includes(sub)] *)
Fixpoint includes (s sub : string) : bool :=
  if String.prefix sub s then true
  else match s with
       | EmptyString => false
       | String _ s' => includes s' sub
       end.

(** [s.indexOf(sub)], [-1] when [sub] does not occur. *)
Fixpoint indexOf_from (i : Z) (s sub : string) : Z :=
  if String.prefix sub s then i
  else match s with
       | EmptyString => -1
       | String _ s' => indexOf_from (i + 1) s' sub
       end.

Definition indexOf (s sub : string) : Z := indexOf_from 0 s sub.

(** [s.substring(a, b)]: both ends are clamped to [0, s.length] and swapped
    when [a > b]. *)
Definition clamp (len i : Z) : Z := Z.max 0 (Z.min i len).

Definition substring (s : string) (a b : Z) : string :=
  let len := Z.of_nat (String.length s) in
  let a' := clamp len a in
  let b' := clamp len b in
  let lo := Z.min a' b' in
  let hi := Z.max a' b' in
  String.substring (Z.to_nat lo) (Z.to_nat (hi - lo)) s.

(** [s.substring(a)]: the end defaults to [s.length]. *)
Definition substring_from (s : string) (a : Z) : string :=
  substring s a (Z.of_nat (String.length s)).

End JsString.

(** ** JavaScript [Map], in insertion order *)

Module JsMap.

(** The entries, oldest insertion first. *)
Abbreviation t K V := (list (K * V)).

Section JsMap.
Context {K V : Type} `{EqDecision K}.
Implicit Types (k : K) (v : V) (m : t K V).

Definition empty : t K V := [].

Fixpoint get k m : option V :=
  match m with
  | [] => None
  | (k', v) :: m' => if decide (k = k') then Some v else get k m'
  end.

Definition has k m : bool :=
  match get k m with Some _ => true | None => false end.

(** A present key keeps its place, an absent one goes last. *)
Fixpoint set k v m : t K V :=
  match m with
  | [] => [(k, v)]
  | (k', v') :: m' =>
      if decide (k = k') then (k, v) :: m' else (k', v') :: set k v m'
  end.

Fixpoint delete k m : t K V :=
  match m with
  | [] => []
  | (k', v') :: m' =>
      if decide (k = k') then m' else (k', v') :: delete k m'
  end.

Definition keys m : list K := m.*1.

Definition values m : list V := m.*2.

(** The entries of one key (not a method of [Map]; used to state what a
    key's group looks like). *)
Definition restrict k m : t K V := filter (fun e => e.1 = k) m.

End JsMap.
End JsMap.

(** ** Track records *)

(** The object built by [getAllTrackData]; [isrc] and [popularity] are set
    only for a track that the enrichment pass found. *)
Record Track : Type := mkTrack {
  id : string;
  title : string;
  uri : string;
  album_type : string;
  external : bool;
  artists : list string;
  duration_ms : Z;
  isrc : option string;
  popularity : option Z
}.

Abbreviation TrackMap := (JsMap.t (option string) Track).

(** ** Duplicate resolver *)

(** [uniqueTracks.delete(key); uniqueTracks.set(key, track);] *)
Definition replace_track (key : option string) (track : Track)
    (uniqueTracks : TrackMap) : TrackMap :=
  JsMap.set key track (JsMap.delete key uniqueTracks).

(** The body of the [forEach] of [removeDuplicateTracks]. *)
Definition dedup_step (uniqueTracks : TrackMap) (track : Track) : TrackMap :=
  let key := isrc track in
  if negb (JsMap.has key uniqueTracks) then JsMap.set key track uniqueTracks
  else
    match JsMap.get key uniqueTracks with
    | None => uniqueTracks
    | Some previousTrack =>
        if external track && external previousTrack then
          if (String.eqb (album_type track) "single"
              && negb (String.eqb (album_type previousTrack) "album"))
             || String.eqb (album_type track) "album"
          then replace_track key track uniqueTracks
          else uniqueTracks
        else if negb (external track) then
          let m1 :=
            if String.eqb (album_type track) "single" then
              if external previousTrack then
                if String.eqb (album_type previousTrack) "single"
                   || String.eqb (album_type previousTrack) "album"
                   || String.eqb (album_type previousTrack) "compilation"
                then replace_track key track uniqueTracks
                else uniqueTracks
              else if String.eqb (album_type previousTrack) "single"
                      || String.eqb (album_type previousTrack) "compilation"
              then replace_track key track uniqueTracks
              else uniqueTracks
            else uniqueTracks in
          let m2 :=
            if String.eqb (album_type track) "album"
            then replace_track key track m1 else m1 in
          let m3 :=
            if String.eqb (album_type track) "compilation" then
              if String.eqb (album_type previousTrack) "compilation"
              then replace_track key track m2 else m2
            else m2 in
          m3
        else uniqueTracks
    end.

(** [uniqueTracks] after the [forEach] over [tracks]. *)
Definition dedup_map (tracks : list Track) : TrackMap :=
  fold_left dedup_step tracks JsMap.empty.

Definition removeDuplicateTracks (tracks : list Track) : list Track :=
  JsMap.values (dedup_map tracks).

(** Every entry is filed under the identifier of its record, and no key
    occurs twice. *)
Definition keyed (m : TrackMap) : Prop := Forall (fun e => e.1 = isrc e.2) m.

Definition well_formed (m : TrackMap) : Prop :=
  keyed m /\ NoDup (JsMap.keys m).

(** The records of one identifier; [group_of None] are the records without
    one. *)
Definition group_of (k : option string) (l : list Track) : list Track :=
  filter (fun t => isrc t = k) l.

(** The identifiers of a list in the order in which each first appears. *)
Fixpoint first_seen (ks : list (option string)) : list (option string) :=
  match ks with
  | [] => []
  | k :: ks' => k :: filter (fun k' => k' ≠ k) (first_seen ks')
  end.

(** A record from one of the artist's own albums: not a guest appearance,
    category album. *)
Definition is_own_album (t : Track) : bool :=
  negb (external t) && String.eqb (album_type t) "album".

(** ** Alternate-version filter *)

Definition keywords : list string :=
  [ "version"; "live"; "remix"; "edit"; "acoustic"; "stripped"; "session";
    "sessions"; "demo"; "acapella"; "a cappella"; "memo"; "track by track";
    "mix"; "recorded at"; "instrumental"; "orchestral"; "spotify singles";
    "commentary"; "extended"; "sped up"; "slowed"; "voicenote"; "club";
    "dub"; "radio"; "fix" ].

Definition exceptions : list string := [ "taylor" ].

(** The three-way choice of [separatorIndex] on the lower-cased title. *)
Definition separatorIndex (title : string) : Z :=
  if JsString.includes title "-" && JsString.includes title "(" then
    Z.min (JsString.indexOf title "-") (JsString.indexOf title "(")
  else if JsString.includes title "-" then JsString.indexOf title "-"
  else JsString.indexOf title "(".

Definition titleBeforeSeparator (title : string) : string :=
  JsString.trim (JsString.substring title 0 (separatorIndex title)).

Definition titleAfterSeparator (title : string) : string :=
  JsString.trim (JsString.substring_from title (separatorIndex title + 1)).

Definition hasKeyword (after : string) : bool :=
  existsb (fun keyword => JsString.includes after keyword) keywords.

Definition hasException (after : string) : bool :=
  existsb (fun exception => JsString.includes after exception) exceptions.

(** [tracks.find((track) => track.title.toLowerCase() === before)] *)
Definition matchingTrack (tracks : list Track) (before : string)
    : option Track :=
  List.find
    (fun track => String.eqb (JsString.toLowerCase (title track)) before)
    tracks.

(** The body of the [forEach] of [removeAlternateVersions]; [tracks] is the
    whole input, searched for the canonical title. *)
Definition alternate_step (tracks : list Track) (uniqueTracks : TrackMap)
    (track : Track) : TrackMap :=
  if JsString.includes (title track) "-" || JsString.includes (title track) "("
  then
    let title := JsString.toLowerCase (title track) in
    let before := titleBeforeSeparator title in
    let after := titleAfterSeparator title in
    if hasKeyword after && negb (hasException after) then
      match matchingTrack tracks before with
      | None => JsMap.set (isrc track) track uniqueTracks
      | Some _ => uniqueTracks
      end
    else JsMap.set (isrc track) track uniqueTracks
  else JsMap.set (isrc track) track uniqueTracks.

(** [uniqueTracks] after the records [done] of the [forEach] over
    [tracks]. *)
Definition alternate_map (tracks done : list Track) : TrackMap :=
  fold_left (alternate_step tracks) done JsMap.empty.

Definition removeAlternateVersions (tracks : list Track) : list Track :=
  JsMap.values (alternate_map tracks tracks).

(** The test that sends a record to the [console.log] branch, the only one
    that does not [set] it. *)
Definition is_alternate (tracks : list Track) (track : Track) : bool :=
  (JsString.includes (title track) "-" || JsString.includes (title track) "(")
  && (let title := JsString.toLowerCase (title track) in
      hasKeyword (titleAfterSeparator title)
      && negb (hasException (titleAfterSeparator title))
      && match matchingTrack tracks (titleBeforeSeparator title) with
         | Some _ => true
         | None => false
         end).

(** *** The filter as the specification words it *)

Definition is_delimiter (c : ascii) : bool :=
  Ascii.eqb c "-" || Ascii.eqb c "(".

(** The title split at its earliest hyphen or opening parenthesis: the part
    before it and the part after it. *)
Fixpoint split_at_delimiter (s : string) : option (string * string) :=
  match s with
  | EmptyString => None
  | String c s' =>
      if is_delimiter c then Some (EmptyString, s')
      else match split_at_delimiter s' with
           | Some (base, suffix) => Some (String c base, suffix)
           | None => None
           end
  end.

Definition has_delimiter (s : string) : bool :=
  match split_at_delimiter s with Some _ => true | None => false end.

(** A track is dropped when its title has a delimiter, the suffix of the
    lower-cased title contains a keyword and no exception, and some track
    of the input is titled, case aside, like the base (surrounding white
    space aside). *)
Definition drops_as_alternate (tracks : list Track) (track : Track) : bool :=
  has_delimiter (title track)
  && match split_at_delimiter (JsString.toLowerCase (title track)) with
     | None => false
     | Some (base, suffix) =>
         existsb (JsString.includes suffix) keywords
         && negb (existsb (JsString.includes suffix) exceptions)
         && existsb
              (fun other =>
                 String.eqb (JsString.toLowerCase (title other))
                   (JsString.trim base))
              tracks
     end.

(** A word that neither starts nor ends with white space; trimming a text
    cannot cut into an occurrence of such a word. *)
Definition starts_tight (w : string) : bool :=
  match w with
  | EmptyString => false
  | String c _ => negb (JsString.isWhiteSpace c)
  end.

Fixpoint ends_tight (w : string) : bool :=
  match w with
  | EmptyString => false
  | String c EmptyString => negb (JsString.isWhiteSpace c)
  | String _ w' => ends_tight w'
  end.

(** ** Paginated fetcher *)

Module Fetcher.
Section Fetcher.

(** An album object of the catalogue, as the service returns it. *)
Context {Album : Type}.

(** [spotifyApi.getArtistAlbums(artistId, {include_groups, limit, offset})]
    for the artist of the run: the items of the page, or [None] when the
    request is rejected. *)
Variable getArtistAlbums : string -> Z -> Z -> option (list Album).

Definition limit : Z := 49.

(** What a run leaves behind: the albums pushed so far, the offset variable
    shared by the four loops, and the requests made, oldest first. *)
Record State : Type := mkState {
  allAlbums : list Album;
  offset : Z;
  requests : list (string * Z)
}.

Inductive Outcome : Type :=
| Returned (st : State)
| Threw (st : State)
| OutOfFuel.

(** [fetchAlbums(includeGroups)]: the [while (true)] loop, one request per
    unit of fuel. *)
Fixpoint fetchAlbums (fuel : nat) (includeGroups : string) (st : State)
    : Outcome :=
  match fuel with
  | O => OutOfFuel
  | S fuel' =>
      let st1 := mkState (allAlbums st) (offset st)
                   (requests st ++ [(includeGroups, offset st)]) in
      match getArtistAlbums includeGroups limit (offset st) with
      | None => Threw st1
      | Some items =>
          if (length items =? 0)%nat then Returned st1
          else
            fetchAlbums fuel' includeGroups
              (mkState (allAlbums st1 ++ items) (offset st1 + limit)
                 (requests st1))
      end
  end.

(** [await f; k]: a rejection or an exhausted budget ends the run. *)
Definition andThen (o : Outcome) (k : State -> Outcome) : Outcome :=
  match o with
  | Returned st => k st
  | Threw st => Threw st
  | OutOfFuel => OutOfFuel
  end.

Definition resetOffset (st : State) : State :=
  mkState (allAlbums st) 0 (requests st).

Definition fetchAllAlbums (fuel : nat) : Outcome :=
  andThen (fetchAlbums fuel "album" (mkState [] 0 [])) (fun st =>
  andThen (fetchAlbums fuel "single" (resetOffset st)) (fun st =>
  andThen (fetchAlbums fuel "compilation" (resetOffset st)) (fun st =>
  fetchAlbums fuel "appears_on" (resetOffset st)))).

(** The four categories, in the order of the four calls. *)
Definition include_groups : list string :=
  ["album"; "single"; "compilation"; "appears_on"].

(** The answer to the request for page [n] of a category, pages counted
    from 0. *)
Definition page (includeGroups : string) (n : nat) : option (list Album) :=
  getArtistAlbums includeGroups limit (limit * Z.of_nat n).

(** The items of the [n] pages from page [p] on. *)
Definition pages_from (includeGroups : string) (p n : nat) : list Album :=
  flat_map (fun i => default [] (page includeGroups i)) (seq p n).

(** The requests for the pages [p], ..., [p + n] of a category. *)
Definition requests_from (includeGroups : string) (p n : nat)
    : list (string * Z) :=
  map (fun i => (includeGroups, limit * Z.of_nat i)) (seq p (S n)).

(** The items the service gives for a request, none for a rejected one. *)
Definition answer (r : string * Z) : list Album :=
  default [] (getArtistAlbums r.1 limit r.2).

(** The albums collected are the items of the answers, request by request,
    and every request made was answered. *)
Definition all_answered (st : State) : Prop :=
  allAlbums st = flat_map answer (requests st)
  /\ Forall (fun r => is_Some (getArtistAlbums r.1 limit r.2)) (requests st).

(** A page count for each of the four categories. *)
Definition first_empty_of (na ns nc np : nat) (g : string) : nat :=
  if String.eqb g "album" then na
  else if String.eqb g "single" then ns
  else if String.eqb g "compilation" then nc
  else np.

End Fetcher.
End Fetcher.

(** ** Chunked playlist insertion *)

Module Playlist.
Section Playlist.

(** [spotifyApi.addTracksToPlaylist(allSongsPlaylistId, chunk)] for the
    playlist of the run: [true] when the call resolves, [false] when it is
    rejected. *)
Variable addTracksToPlaylist : list string -> bool.

Definition chunkSize : Z := 100.

(** [trackUris.slice(i, j)] for [0 <= i <= j]. *)
Definition slice (trackUris : list string) (i j : Z) : list string :=
  take (Z.to_nat (j - i)) (drop (Z.to_nat i) trackUris).

(** The [for] loop of the handler from index [i]: the chunks passed to the
    service, in order, and whether the loop ran to its end ([false]: a call
    was rejected and the handler answered 500). Every round moves [i] up by
    [chunkSize], so [length trackUris] rounds of fuel are never used up. *)
Fixpoint insertFrom (fuel : nat) (trackUris : list string) (i : Z)
    : list (list string) * bool :=
  match fuel with
  | O => ([], negb (i <? Z.of_nat (length trackUris)))
  | S fuel' =>
      if i <? Z.of_nat (length trackUris) then
        let chunk := slice trackUris i (i + chunkSize) in
        if addTracksToPlaylist chunk then
          let '(calls, ok) := insertFrom fuel' trackUris (i + chunkSize) in
          (chunk :: calls, ok)
        else ([chunk], false)
      else ([], true)
  end.

Definition insertTracks (trackUris : list string) : list (list string) * bool :=
  insertFrom (length trackUris) trackUris 0.

End Playlist.
End Playlist.

(** ** Track loader *)

(** The objects of the catalogue service, with the fields the code reads. *)

Module Artist.
Record t : Type := mk { name : string }.
End Artist.

(** An item of [getArtistAlbums]. *)
Module SimplifiedAlbum.
Record t : Type := mk {
  id : string;
  album_group : string;
  release_date : string;
  artists : list Artist.t
}.
End SimplifiedAlbum.

(** An element of [albumData], built by the handler. *)
Module AlbumData.
Record t : Type := mk { id : string; album_group : string }.
End AlbumData.

(** An item of [album.tracks.items]. *)
Module SimplifiedTrack.
Record t : Type := mk {
  id : string;
  name : string;
  uri : string;
  artists : list Artist.t;
  duration_ms : Z
}.
End SimplifiedTrack.

(** An element of the answer of [getAlbums]. *)
Module FullAlbum.
Record t : Type := mk {
  id : string;
  album_type : string;
  tracks_items : list SimplifiedTrack.t
}.
End FullAlbum.

Module ExternalIds.
Record t : Type := mk { isrc : option string }.
End ExternalIds.

(** An element of the answer of [getTracks]. *)
Module FullTrack.
Record t : Type := mk {
  id : string;
  external_ids : ExternalIds.t;
  popularity : Z
}.
End FullTrack.

Module JsArray.

(** [xs.slice(i, j)] for [0 <= i <= j]. *)
Definition slice {A} (xs : list A) (i j : Z) : list A :=
  take (Z.to_nat (j - i)) (drop (Z.to_nat i) xs).

(** The consecutive pieces of [size] elements of [xs], the last one
    possibly shorter: piece [j] is [xs.slice(size * j, size * j + size)]. *)
Definition chunk_list {A} (size : Z) (xs : list A) : list (list A) :=
  map (fun j => slice xs (size * Z.of_nat j) (size * Z.of_nat j + size))
    (seq 0 (Z.to_nat ((Z.of_nat (length xs) + size - 1) / size))).

End JsArray.

Module Loader.

Inductive Error : Type :=
| Rejected   (** a request to the service failed *)
| TypeError. (** a property of [undefined] was read *)

(** How an asynchronous function ends: with its state, by throwing, or
    (in the model only) with its loop budget used up. *)
Inductive Outcome (S : Type) : Type :=
| Returned (s : S)
| Threw (e : Error) (s : S)
| OutOfFuel.
Arguments Returned {S} s.
Arguments Threw {S} e s.
Arguments OutOfFuel {S}.

(** [for (let i = start; i < xs.length; i += size)
       { const chunk = xs.slice(i, i + size); body }] *)
Fixpoint for_chunks {A S : Type} (size : Z)
    (body : list A -> S -> Outcome S) (fuel : nat) (xs : list A) (i : Z)
    (s : S) : Outcome S :=
  if i <? Z.of_nat (length xs) then
    match fuel with
    | O => OutOfFuel
    | S fuel' =>
        match body (JsArray.slice xs i (i + size)) s with
        | Returned s' => for_chunks size body fuel' xs (i + size) s'
        | Threw e s' => Threw e s'
        | OutOfFuel => OutOfFuel
        end
    end
  else Returned s.

(** The same body run on an explicit list of chunks, one after the other,
    up to the first that does not return. *)
Fixpoint run_chunks {A S : Type} (body : list A -> S -> Outcome S)
    (chunks : list (list A)) (s : S) : Outcome S :=
  match chunks with
  | [] => Returned s
  | chunk :: chunks' =>
      match body chunk s with
      | Returned s' => run_chunks body chunks' s'
      | Threw e s' => Threw e s'
      | OutOfFuel => OutOfFuel
      end
  end.

Section Loader.

(** [spotifyApi.getAlbums(albumIds)] and [spotifyApi.getTracks(trackIds)]:
    the [body.albums] and [body.tracks] of the answer, or [None] when the
    request is rejected. The elements of an answer are objects; an answer
    with a [null] element is outside the model. *)
Variable getAlbums : list string -> option (list FullAlbum.t).
Variable getTracks : list string -> option (list FullTrack.t).

Definition batchSize : Z := 20.
Definition trackBatchSize : Z := 50.

(** [track.artists.some((artist) => artist.name === artistName)] *)
Definition credits (artistName : string) (track : SimplifiedTrack.t) : bool :=
  existsb (fun artist => String.eqb (Artist.name artist) artistName)
    (SimplifiedTrack.artists track).

(** The object built for one track of an album; [isrc] and [popularity]
    are not set yet. *)
Definition build (album : FullAlbum.t) (albumDataEntry : AlbumData.t)
    (track : SimplifiedTrack.t) : Track :=
  {| id := SimplifiedTrack.id track;
     title := SimplifiedTrack.name track;
     uri := SimplifiedTrack.uri track;
     album_type := FullAlbum.album_type album;
     external := String.eqb (AlbumData.album_group albumDataEntry) "appears_on";
     artists := map Artist.name (SimplifiedTrack.artists track);
     duration_ms := SimplifiedTrack.duration_ms track;
     isrc := None;
     popularity := None |}.

(** The callback of [albums.flatMap]. [albumDataEntry.album_group] is read
    once per credited track, so a missing entry throws only when the album
    has a credited track. *)
Definition albumTracks (albumData : list AlbumData.t) (artistName : string)
    (album : FullAlbum.t) : option (list Track) :=
  let albumDataEntry :=
    List.find
      (fun entry => String.eqb (AlbumData.id entry) (FullAlbum.id album))
      albumData in
  let credited :=
    List.filter (credits artistName) (FullAlbum.tracks_items album) in
  match credited, albumDataEntry with
  | [], _ => Some []
  | _ :: _, None => None
  | _ :: _, Some entry => Some (map (build album entry) credited)
  end.

(** [albums.flatMap(callback)]; [None] when a callback throws. *)
Fixpoint flatMap_albums (albumData : list AlbumData.t) (artistName : string)
    (albums : list FullAlbum.t) : option (list Track) :=
  match albums with
  | [] => Some []
  | album :: albums' =>
      match albumTracks albumData artistName album with
      | None => None
      | Some ts =>
          match flatMap_albums albumData artistName albums' with
          | None => None
          | Some ts' => Some (ts ++ ts')
          end
      end
  end.

(** The variables of [getAllTrackData], and the requests made so far. *)
Record State : Type := mkState {
  tracks : list Track;
  trackIds : list string;
  trackData : list FullTrack.t;
  albumRequests : list (list string);
  trackRequests : list (list string)
}.

(** The body of the first loop. *)
Definition album_batch (albumData : list AlbumData.t) (artistName : string)
    (currentBatch : list AlbumData.t) (st : State) : Outcome State :=
  let albumIds := map AlbumData.id currentBatch in
  let st1 := mkState (tracks st) (trackIds st) (trackData st)
               (albumRequests st ++ [albumIds]) (trackRequests st) in
  match getAlbums albumIds with
  | None => Threw Rejected st1
  | Some albums =>
      match flatMap_albums albumData artistName albums with
      | None => Threw TypeError st1
      | Some albumTracks =>
          Returned
            (mkState (tracks st1 ++ albumTracks)
               (trackIds st1 ++ map id albumTracks)
               (trackData st1) (albumRequests st1) (trackRequests st1))
      end
  end.

(** The body of the second loop. *)
Definition track_batch (chunk : list string) (st : State) : Outcome State :=
  let st1 := mkState (tracks st) (trackIds st) (trackData st)
               (albumRequests st) (trackRequests st ++ [chunk]) in
  match getTracks chunk with
  | None => Threw Rejected st1
  | Some trackDetails =>
      Returned
        (mkState (tracks st1) (trackIds st1) (trackData st1 ++ trackDetails)
           (albumRequests st1) (trackRequests st1))
  end.

(** The body of the final [forEach]: the first detail with the id of the
    track, if any, gives its [isrc] and [popularity]. *)
Definition enrich (trackData : list FullTrack.t) (track : Track) : Track :=
  match List.find
          (fun data => String.eqb (FullTrack.id data) (id track)) trackData
  with
  | Some additionalData =>
      {| id := id track; title := title track; uri := uri track;
         album_type := album_type track; external := external track;
         artists := artists track; duration_ms := duration_ms track;
         isrc := ExternalIds.isrc (FullTrack.external_ids additionalData);
         popularity := Some (FullTrack.popularity additionalData) |}
  | None => track
  end.

(** [getAllTrackData(albumData, artistName)]; each loop gets as many rounds
    as its array has elements. The returned tracks are [tracks] of the
    final state. *)
Definition getAllTrackData (albumData : list AlbumData.t)
    (artistName : string) : Outcome State :=
  match for_chunks batchSize (album_batch albumData artistName)
          (length albumData) albumData 0 (mkState [] [] [] [] [])
  with
  | Returned st =>
      match for_chunks trackBatchSize track_batch
              (length (trackIds st)) (trackIds st) 0 st
      with
      | Returned st' =>
          Returned
            (mkState (map (enrich (trackData st')) (tracks st'))
               (trackIds st') (trackData st') (albumRequests st')
               (trackRequests st'))
      | other => other
      end
  | other => other
  end.

(** What the service gives for a batch of albums and for a batch of track
    ids (nothing for a rejected request), and the tracks the callback builds
    for an album (none when it throws). *)
Definition albums_of (currentBatch : list AlbumData.t) : list FullAlbum.t :=
  default [] (getAlbums (map AlbumData.id currentBatch)).

Definition details_of (chunk : list string) : list FullTrack.t :=
  default [] (getTracks chunk).

Definition tracks_of (albumData : list AlbumData.t) (artistName : string)
    (album : FullAlbum.t) : list Track :=
  default [] (albumTracks albumData artistName album).

(** The tracks built from all the albums of all the batches, before the
    enrichment. *)
Definition built (albumData : list AlbumData.t) (artistName : string)
    : list Track :=
  flat_map (tracks_of albumData artistName)
    (flat_map albums_of (JsArray.chunk_list batchSize albumData)).

End Loader.
End Loader.

(** ** Route handlers *)

Module Handler.

Inductive Body : Type :=
| Text (s : string)
| ErrorValue (e : Loader.Error).

(** What the handler answers: [res.redirect(url)] or
    [res.status(code).send(body)]. *)
Inductive Response : Type :=
| Redirect (url : string)
| Send (status : Z) (body : Body).

(** The tokens held by the [spotifyApi] object of the server. *)
Record Server : Type := mkServer {
  accessToken : option string;
  refreshToken : option string
}.

(** [GET /callback]: [authorizationCodeGrant(code)] answers with the two
    tokens or is rejected. *)
Definition callback (authorizationCodeGrant : string -> option (string * string))
    (code : string) (srv : Server) : Response * Server :=
  match authorizationCodeGrant code with
  | Some (access_token, refresh_token) =>
      (Send 200 (Text "<script>window.close();</script>"),
       mkServer (Some access_token) (Some refresh_token))
  | None => (Redirect "/#/error/invalid-token", srv)
  end.

(** [!spotifyApi.getAccessToken()]: no token, or the empty string. *)
Definition noAccessToken (srv : Server) : bool :=
  match accessToken srv with
  | None => true
  | Some token => String.eqb token ""
  end.

Section CreatePlaylist.

Variable artistId : string.

(** The service, for the requests of [GET /create-playlist/:artistId]. *)
Variable getArtistAlbums :
  string -> string -> Z -> Z -> option (list SimplifiedAlbum.t).
Variable getAlbums : list string -> option (list FullAlbum.t).
Variable getTracks : list string -> option (list FullTrack.t).
(** [createPlaylist(title, {description})]: the [body.id] of the answer. *)
Variable createPlaylist : string -> string -> option string.
Variable addTracksToPlaylist : string -> list string -> bool.
Variable followArtists : list string -> bool.

(** [new Date(release_date)] as a number, for the dates that parse. *)
Variable dateValue : string -> Z.

(** [allAlbums.sort((a, b) => new Date(a.release_date) -
    new Date(b.release_date))]: ascending, albums of equal date in their
    order of arrival (the sort of an array is stable). *)
Fixpoint insert_by_date (a : SimplifiedAlbum.t) (l : list SimplifiedAlbum.t)
    : list SimplifiedAlbum.t :=
  match l with
  | [] => [a]
  | b :: l' =>
      if dateValue (SimplifiedAlbum.release_date a)
         - dateValue (SimplifiedAlbum.release_date b) <=? 0
      then a :: b :: l'
      else b :: insert_by_date a l'
  end.

Fixpoint sort_by_date (l : list SimplifiedAlbum.t) : list SimplifiedAlbum.t :=
  match l with
  | [] => []
  | a :: l' => insert_by_date a (sort_by_date l')
  end.

(** The three [console.error] lines of the handler. *)
Inductive ConsoleLine : Type :=
| ErrorAddingTracks     (** "Error adding tracks to playlist: ..." *)
| ErrorFollowingArtist  (** "Error following artist: ..." *)
| ErrorCaught.          (** "Error:" and the error, in the outer [catch] *)

(** What the handler did to the outside world. *)
Record Log : Type := mkLog {
  fetchRequests : list (string * Z);
  albumRequests : list (list string);
  trackRequests : list (list string);
  playlistTitle : option string;
  insertCalls : list (list string);
  followCalls : list (list string);
  consoleErrors : list ConsoleLine
}.

Definition description : string :=
  "All of the songs, excluding alternate versions (preferring latest album release)".

(** [allAlbums[0].artists[0].name]; [None] when either array is empty
    (a [TypeError]). *)
Definition first_artist_name (allAlbums : list SimplifiedAlbum.t)
    : option string :=
  match allAlbums with
  | [] => None
  | album :: _ =>
      match SimplifiedAlbum.artists album with
      | [] => None
      | artist :: _ => Some (Artist.name artist)
      end
  end.

(** The tracks put on the playlist, from the tracks of the loader. *)
Definition playlist_tracks (tracks : list Track) : list Track :=
  removeAlternateVersions (removeDuplicateTracks tracks).

(** The callback of [sortedAlbums.map]. *)
Definition toAlbumData (album : SimplifiedAlbum.t) : AlbumData.t :=
  AlbumData.mk (SimplifiedAlbum.id album) (SimplifiedAlbum.album_group album).

(** [`All ${artistName} songs`] *)
Definition playlist_title (artistName : string) : string :=
  String.append "All " (String.append artistName " songs").

(** A log without its console lines. *)
Definition without_console (log : Log) : Log :=
  mkLog (fetchRequests log) (albumRequests log) (trackRequests log)
    (playlistTitle log) (insertCalls log) (followCalls log) [].

(** The outer [catch]: the error is logged and sent with status 400. *)
Definition caught (e : Loader.Error)
    (log : list ConsoleLine -> Log) : option Response * Log :=
  (Some (Send 400 (ErrorValue e)), log [ErrorCaught]).

(** [GET /create-playlist/:artistId]. The answer is [None] only when the
    budget of the fetch loops is used up. *)
Definition createPlaylistHandler (fuel : nat) (srv : Server)
    : option Response * Log :=
  if noAccessToken srv then
    (Some (Redirect "/login"), mkLog [] [] [] None [] [] [])
  else
    match Fetcher.fetchAllAlbums (getArtistAlbums artistId) fuel with
    | Fetcher.OutOfFuel => (None, mkLog [] [] [] None [] [] [])
    | Fetcher.Threw st =>
        caught Loader.Rejected (mkLog (Fetcher.requests st) [] [] None [] [])
    | Fetcher.Returned st =>
        let allAlbums := Fetcher.allAlbums st in
        let fetched := Fetcher.requests st in
        match first_artist_name allAlbums with
        | None =>
            caught Loader.TypeError (mkLog fetched [] [] None [] [])
        | Some artistName =>
            let sortedAlbums := sort_by_date allAlbums in
            let albumData := map toAlbumData sortedAlbums in
            match Loader.getAllTrackData getAlbums getTracks albumData
                    artistName
            with
            | Loader.OutOfFuel => (None, mkLog fetched [] [] None [] [] [])
            | Loader.Threw e lst =>
                caught e
                  (mkLog fetched (Loader.albumRequests lst)
                     (Loader.trackRequests lst) None [] [])
            | Loader.Returned lst =>
                let tracksWithoutAlternateVersions :=
                  playlist_tracks (Loader.tracks lst) in
                let allSongsPlaylistTitle := playlist_title artistName in
                let loaded :=
                  mkLog fetched (Loader.albumRequests lst)
                    (Loader.trackRequests lst)
                    (Some allSongsPlaylistTitle) in
                match createPlaylist allSongsPlaylistTitle description with
                | None => caught Loader.Rejected (loaded [] [])
                | Some allSongsPlaylistId =>
                    let trackUris := map uri tracksWithoutAlternateVersions in
                    let '(calls, ok) :=
                      Playlist.insertTracks
                        (addTracksToPlaylist allSongsPlaylistId) trackUris in
                    if ok then
                      (Some (Send 200 (Text "Playlist created successfully.")),
                       loaded calls [[artistId]]
                         (if followArtists [artistId] then []
                          else [ErrorFollowingArtist]))
                    else
                      (Some (Send 500 (Text "Error adding tracks to playlist")),
                       loaded calls [] [ErrorAddingTracks])
                end
            end
        end
    end.

(** The seven ways through the handler. *)
Inductive Path (fuel : nat) (srv : Server) : option Response * Log -> Prop :=
| path_login :
    noAccessToken srv = true ->
    Path fuel srv (Some (Redirect "/login"), mkLog [] [] [] None [] [] [])
| path_fuel :
    noAccessToken srv = false ->
    Fetcher.fetchAllAlbums (getArtistAlbums artistId) fuel = Fetcher.OutOfFuel ->
    Path fuel srv (None, mkLog [] [] [] None [] [] [])
| path_fetch_threw st :
    noAccessToken srv = false ->
    Fetcher.fetchAllAlbums (getArtistAlbums artistId) fuel = Fetcher.Threw st ->
    Path fuel srv
      (Some (Send 400 (ErrorValue Loader.Rejected)),
       mkLog (Fetcher.requests st) [] [] None [] [] [ErrorCaught])
| path_no_artist st :
    noAccessToken srv = false ->
    Fetcher.fetchAllAlbums (getArtistAlbums artistId) fuel
    = Fetcher.Returned st ->
    first_artist_name (Fetcher.allAlbums st) = None ->
    Path fuel srv
      (Some (Send 400 (ErrorValue Loader.TypeError)),
       mkLog (Fetcher.requests st) [] [] None [] [] [ErrorCaught])
| path_loader_threw st artistName e lst :
    noAccessToken srv = false ->
    Fetcher.fetchAllAlbums (getArtistAlbums artistId) fuel
    = Fetcher.Returned st ->
    first_artist_name (Fetcher.allAlbums st) = Some artistName ->
    Loader.getAllTrackData getAlbums getTracks
      (map toAlbumData (sort_by_date (Fetcher.allAlbums st)))
      artistName
    = Loader.Threw e lst ->
    Path fuel srv
      (Some (Send 400 (ErrorValue e)),
       mkLog (Fetcher.requests st) (Loader.albumRequests lst)
         (Loader.trackRequests lst) None [] [] [ErrorCaught])
| path_no_playlist st artistName lst :
    noAccessToken srv = false ->
    Fetcher.fetchAllAlbums (getArtistAlbums artistId) fuel
    = Fetcher.Returned st ->
    first_artist_name (Fetcher.allAlbums st) = Some artistName ->
    Loader.getAllTrackData getAlbums getTracks
      (map toAlbumData (sort_by_date (Fetcher.allAlbums st)))
      artistName
    = Loader.Returned lst ->
    createPlaylist (playlist_title artistName) description = None ->
    Path fuel srv
      (Some (Send 400 (ErrorValue Loader.Rejected)),
       mkLog (Fetcher.requests st) (Loader.albumRequests lst)
         (Loader.trackRequests lst) (Some (playlist_title artistName))
         [] [] [ErrorCaught])
| path_inserted st artistName lst pid :
    noAccessToken srv = false ->
    Fetcher.fetchAllAlbums (getArtistAlbums artistId) fuel
    = Fetcher.Returned st ->
    first_artist_name (Fetcher.allAlbums st) = Some artistName ->
    Loader.getAllTrackData getAlbums getTracks
      (map toAlbumData (sort_by_date (Fetcher.allAlbums st)))
      artistName
    = Loader.Returned lst ->
    createPlaylist (playlist_title artistName) description = Some pid ->
    Path fuel srv
      (let trackUris := map uri (playlist_tracks (Loader.tracks lst)) in
       let calls := (Playlist.insertTracks (addTracksToPlaylist pid) trackUris).1 in
       if (Playlist.insertTracks (addTracksToPlaylist pid) trackUris).2 then
         (Some (Send 200 (Text "Playlist created successfully.")),
          mkLog (Fetcher.requests st) (Loader.albumRequests lst)
            (Loader.trackRequests lst) (Some (playlist_title artistName))
            calls [[artistId]]
            (if followArtists [artistId] then [] else [ErrorFollowingArtist]))
       else
         (Some (Send 500 (Text "Error adding tracks to playlist")),
          mkLog (Fetcher.requests st) (Loader.albumRequests lst)
            (Loader.trackRequests lst) (Some (playlist_title artistName))
            calls [] [ErrorAddingTracks])).

End CreatePlaylist.
End Handler.

(** ** Sample records *)

Module Sample.

Definition track (i ti ty : string) (ext : bool) (code : option string)
    : Track :=
  {| id := i; title := ti; uri := "spotify:track:" ++ i; album_type := ty;
     external := ext; artists := ["Artist"]; duration_ms := 180000;
     isrc := code; popularity := None |}.

(** Two records that the enrichment pass did not find. *)
Definition lost1 : Track := track "t1" "Intro" "album" false None.
Definition lost2 : Track := track "t2" "Outro" "single" false None.

(** One recording on a single and later on an album, with another
    recording released in between. *)
Definition early_single : Track := track "t3" "Song" "single" false (Some "ISRC-A").
Definition other_single : Track := track "t4" "Other" "single" false (Some "ISRC-B").
Definition late_album : Track := track "t5" "Song" "album" false (Some "ISRC-A").

(** A guest appearance on a single, and the same recording on the artist's
    own compilation. *)
Definition guest_single : Track := track "t6" "Duet" "single" true (Some "ISRC-C").
Definition own_compilation : Track :=
  track "t7" "Duet" "compilation" false (Some "ISRC-C").
Definition own_single : Track := track "t8" "Duet" "single" false (Some "ISRC-C").

(** A canonical title and an alternate version of it. *)
Definition song : Track := track "t9" "Song" "album" false (Some "ISRC-D").
Definition song_acoustic : Track :=
  track "t10" "Song (Acoustic)" "single" false (Some "ISRC-E").

(** Release years of the originating releases of the three records above. *)
Definition release_year (t : Track) : Z :=
  if String.eqb (id t) "t3" then 2001
  else if String.eqb (id t) "t4" then 2002
  else if String.eqb (id t) "t5" then 2003
  else 0.

(** Two compilations of one recording. *)
Definition first_compilation : Track :=
  track "t13" "Hit" "compilation" false (Some "ISRC-G").
Definition second_compilation : Track :=
  track "t14" "Hit" "compilation" false (Some "ISRC-G").

(** A re-recording, named by the exception word, next to its original. *)
Definition love_story : Track :=
  track "t15" "Love Story" "album" false (Some "ISRC-H").
Definition love_story_rerecorded : Track :=
  track "t16" "Love Story (Taylor's Version)" "album" false (Some "ISRC-I").

(** Two plain titles filed under one identifier. *)
Definition twin1 : Track := track "t11" "First" "album" false (Some "ISRC-F").
Definition twin2 : Track := track "t12" "Second" "album" false (Some "ISRC-F").

(** A catalogue with two pages of albums and one single; every other page
    is empty. *)
Definition catalogue (includeGroups : string) (limit offset : Z)
    : option (list string) :=
  if String.eqb includeGroups "album" then
    if offset =? 0 then Some ["album 1"; "album 2"]
    else if offset =? 49 then Some ["album 3"]
    else Some []
  else if String.eqb includeGroups "single" then
    if offset =? 0 then Some ["single 1"] else Some []
  else Some [].

(** A catalogue with one album, whose requests for singles are
    rejected. *)
Definition broken_catalogue (includeGroups : string) (limit offset : Z)
    : option (list string) :=
  if String.eqb includeGroups "album" then
    if offset =? 0 then Some ["album 1"] else Some []
  else if String.eqb includeGroups "single" then None
  else Some [].

Definition catalogue_first_empty (includeGroups : string) : nat :=
  if String.eqb includeGroups "album" then 2
  else if String.eqb includeGroups "single" then 1
  else 0.

(** A playlist service that accepts every call. *)
Definition accept_all (chunk : list string) : bool := true.

(** A playlist service that accepts full chunks only. *)
Definition accept_first (chunk : list string) : bool :=
  (length chunk =? 100)%nat.

(** A small catalogue for the loader: an album of the artist with one own
    track and one track of somebody else, and a single of another artist on
    which the artist appears. The details of the second track are missing
    from the answer. *)
Definition artist : Artist.t := Artist.mk "Artist".
Definition other_artist : Artist.t := Artist.mk "Other".

Definition album1 : FullAlbum.t :=
  FullAlbum.mk "a1" "album"
    [ SimplifiedTrack.mk "t9" "Song" "spotify:track:t9" [artist] 180000;
      SimplifiedTrack.mk "x1" "Foreign" "spotify:track:x1" [other_artist]
        200000 ].

Definition album2 : FullAlbum.t :=
  FullAlbum.mk "a2" "single"
    [ SimplifiedTrack.mk "t10" "Song (Acoustic)" "spotify:track:t10"
        [other_artist; artist] 190000 ].


Definition albumData : list AlbumData.t :=
  [AlbumData.mk "a1" "album"; AlbumData.mk "a2" "appears_on"].

Definition getAlbums (albumIds : list string) : option (list FullAlbum.t) :=
  if bool_decide (albumIds = ["a1"; "a2"]) then Some [album1; album2]
  else None.


Definition getTracks (trackIds : list string) : option (list FullTrack.t) :=
  if bool_decide (trackIds = ["t9"; "t10"])
  then Some [FullTrack.mk "t9" (ExternalIds.mk (Some "ISRC-D")) 50]
  else None.

(** The state in which the loader returns on this catalogue. *)
Definition loaded : Loader.State :=
  Eval vm_compute in
    match Loader.getAllTrackData getAlbums getTracks albumData "Artist" with
    | Loader.Returned st => st
    | _ => Loader.mkState [] [] [] [] []
    end.

(** A service for a whole run of the handler: the artist has one album
    and appears on one single of an earlier date. *)
Definition artistId : string := "artist-1".

Definition artist_albums (artistId includeGroups : string) (limit offset : Z)
    : option (list SimplifiedAlbum.t) :=
  if offset =? 0 then
    if String.eqb includeGroups "album"
    then Some [SimplifiedAlbum.mk "a1" "album" "2020-01-01" [artist]]
    else if String.eqb includeGroups "appears_on"
    then Some [SimplifiedAlbum.mk "a2" "appears_on" "2019-05-05"
                 [other_artist; artist]]
    else Some []
  else Some [].

Definition no_albums (artistId includeGroups : string) (limit offset : Z)
    : option (list SimplifiedAlbum.t) := Some [].

Definition album_service (albumIds : list string)
    : option (list FullAlbum.t) :=
  Some (flat_map
          (fun i => if String.eqb i "a1" then [album1]
                    else if String.eqb i "a2" then [album2] else [])
          albumIds).

Definition track_service (trackIds : list string)
    : option (list FullTrack.t) :=
  Some (flat_map
          (fun i =>
             if String.eqb i "t9"
             then [FullTrack.mk "t9" (ExternalIds.mk (Some "ISRC-D")) 50]
             else if String.eqb i "t10"
             then [FullTrack.mk "t10" (ExternalIds.mk (Some "ISRC-E")) 40]
             else [])
          trackIds).

Definition year (release_date : string) : Z :=
  if String.eqb release_date "2019-05-05" then 2019
  else if String.eqb release_date "2020-01-01" then 2020
  else 0.

Definition new_playlist (title description : string) : option string :=
  Some "playlist-1".

Definition accept (playlistId : string) (chunk : list string) : bool := true.
Definition reject (playlistId : string) (chunk : list string) : bool := false.
Definition follow_fails (artistIds : list string) : bool := false.

Definition signed_in : Handler.Server :=
  Handler.mkServer (Some "token") (Some "refresh").

Definition signed_out : Handler.Server := Handler.mkServer None None.

(** The run that goes through although following fails, and the run whose
    insertion call is rejected. *)
Definition run_ok : option Handler.Response * Handler.Log :=
  Eval vm_compute in
    Handler.createPlaylistHandler artistId artist_albums album_service
      track_service new_playlist accept follow_fails year 3 signed_in.

Definition run_rejected : option Handler.Response * Handler.Log :=
  Eval vm_compute in
    Handler.createPlaylistHandler artistId artist_albums album_service
      track_service new_playlist reject follow_fails year 3 signed_in.

End Sample.

(** * Properties *)

(** ** Lists *)

Section ListFacts.
Context {A : Type}.

Lemma filter_all (P : A -> Prop) `{!forall x, Decision (P x)} (l : list A) :
  Forall P l -> filter P l = l.
Proof.
  induction 1 as [|x l Hx _ IH]; [done|].
  rewrite filter_cons_True by done. by rewrite IH.
Qed.


End ListFacts.

(** ** The insertion-ordered map *)

Module JsMapFacts.
Import JsMap.
Section JsMapFacts.
Context {K V : Type} `{EqDecision K}.
Implicit Types (k : K) (v : V) (m : JsMap.t K V).

Lemma get_None k m : get k m = None <-> k ∉ keys m.
Proof.
  unfold keys. induction m as [|[k' v'] m IH]; csimpl.
  - split; [intros _; apply not_elem_of_nil | done].
  - rewrite not_elem_of_cons. case_decide; [|tauto].
    split; [done | intros [? _]; done].
Qed.


Lemma has_false k m : has k m = false <-> k ∉ keys m.
Proof. unfold has. rewrite <- get_None. destruct (get k m); naive_solver. Qed.

Lemma has_true k m : has k m = true <-> k ∈ keys m.
Proof.
  destruct (has k m) eqn:E.
  - split; [intros _|done]. destruct (decide (k ∈ keys m)) as [|Hn]; [done|].
    apply has_false in Hn. congruence.
  - apply has_false in E. naive_solver.
Qed.

Lemma set_absent k v m : k ∉ keys m -> set k v m = m ++ [(k, v)].
Proof.
  unfold keys. induction m as [|[k' v'] m IH]; csimpl; [done|].
  rewrite not_elem_of_cons. intros [? ?]. case_decide; [done|]. by rewrite IH.
Qed.

Lemma keys_set_present k v m : k ∈ keys m -> keys (set k v m) = keys m.
Proof.
  unfold keys. induction m as [|[k' v'] m IH]; csimpl.
  - intros ?%elem_of_nil. done.
  - case_decide; simplify_eq; [done|].
    rewrite elem_of_cons. intros [?|?]; [done|]. csimpl. f_equal. by apply IH.
Qed.

Lemma get_set_eq k v m : get k (set k v m) = Some v.
Proof.
  induction m as [|[k' v'] m IH]; csimpl.
  - by rewrite decide_True.
  - case_decide; csimpl; [by rewrite decide_True | by rewrite decide_False].
Qed.

Lemma get_set_ne k k' v m : k ≠ k' -> get k' (set k v m) = get k' m.
Proof.
  intros Hne. induction m as [|[k0 v0] m IH]; csimpl.
  - by rewrite decide_False.
  - destruct (decide (k = k0)) as [->|]; csimpl; [|by rewrite IH].
    by rewrite !decide_False.
Qed.

Lemma delete_sublist k m : delete k m `sublist_of` m.
Proof.
  induction m as [|[k' v'] m IH]; csimpl; [done|].
  case_decide; [by apply sublist_cons | by apply sublist_skip].
Qed.


Lemma delete_filter k m :
  NoDup (keys m) -> delete k m = filter (fun e => e.1 ≠ k) m.
Proof.
  unfold keys. induction m as [|[k' v'] m IH]; csimpl; [done|].
  rewrite NoDup_cons. intros [Hk' Hnd]. case_decide; simplify_eq.
  - rewrite filter_cons_False by (intros Hc; by apply Hc).
    symmetry. apply filter_all, Forall_forall. intros [k0 v0] Hx Heq.
    apply Hk'. simpl in Heq. subst k0. apply list_elem_of_fmap.
    by exists (k', v0).
  - rewrite filter_cons_True by (simpl; congruence). f_equal. by apply IH.
Qed.

Lemma NoDup_keys_delete k m : NoDup (keys m) -> NoDup (keys (delete k m)).
Proof.
  intros Hnd. eapply sublist_NoDup; [exact Hnd|].
  unfold keys. apply fmap_sublist, delete_sublist.
Qed.

Lemma delete_not_elem k m : NoDup (keys m) -> k ∉ keys (delete k m).
Proof.
  intros Hnd. rewrite delete_filter by done. unfold keys.
  intros ([k0 v0] & Heq & [Hne _]%list_elem_of_filter)%list_elem_of_fmap.
  simpl in *. congruence.
Qed.

Lemma NoDup_keys_set k v m : NoDup (keys m) -> NoDup (keys (set k v m)).
Proof.
  intros Hnd. destruct (decide (k ∈ keys m)) as [Hin|Hnin].
  - by rewrite keys_set_present.
  - rewrite set_absent by done. unfold keys in *. rewrite fmap_app. csimpl.
    apply NoDup_app. split; [done|]. split; [|apply NoDup_singleton].
    intros x Hx ->%list_elem_of_singleton. done.
Qed.

Lemma get_restrict k m : get k (restrict k m) = get k m.
Proof.
  unfold restrict. induction m as [|[k' v'] m IH]; csimpl; [done|].
  destruct (decide (k = k')) as [->|Hne].
  - rewrite filter_cons_True by done. csimpl. by rewrite decide_True.
  - rewrite filter_cons_False by naive_solver. done.
Qed.

Lemma restrict_set_eq k v m : restrict k (set k v m) = set k v (restrict k m).
Proof.
  unfold restrict. induction m as [|[k' v'] m IH]; csimpl.
  - by rewrite filter_cons_True.
  - destruct (decide (k = k')) as [->|Hne].
    + rewrite !filter_cons_True by done. csimpl. by rewrite decide_True.
    + rewrite !filter_cons_False by naive_solver. done.
Qed.

Lemma restrict_set_ne k k' v m : k ≠ k' -> restrict k' (set k v m) = restrict k' m.
Proof.
  intros Hne. unfold restrict. induction m as [|[k0 v0] m IH]; csimpl.
  - rewrite filter_cons_False by naive_solver. done.
  - destruct (decide (k = k0)) as [->|Hne0].
    + rewrite !filter_cons_False by naive_solver. done.
    + destruct (decide (k0 = k')) as [->|].
      * rewrite !filter_cons_True by done. by rewrite IH.
      * rewrite !filter_cons_False by naive_solver. done.
Qed.

Lemma restrict_delete_eq k m : restrict k (delete k m) = delete k (restrict k m).
Proof.
  unfold restrict. induction m as [|[k' v'] m IH]; csimpl; [done|].
  destruct (decide (k = k')) as [->|Hne].
  - rewrite filter_cons_True by done. csimpl. by rewrite decide_True.
  - rewrite !filter_cons_False by naive_solver. done.
Qed.

Lemma restrict_delete_ne k k' m : k ≠ k' -> restrict k' (delete k m) = restrict k' m.
Proof.
  intros Hne. unfold restrict. induction m as [|[k0 v0] m IH]; csimpl; [done|].
  destruct (decide (k = k0)) as [->|Hne0].
  - rewrite filter_cons_False by naive_solver. done.
  - destruct (decide (k0 = k')) as [->|].
    + rewrite !filter_cons_True by done. by rewrite IH.
    + rewrite !filter_cons_False by naive_solver. done.
Qed.

End JsMapFacts.
End JsMapFacts.

(** ** Strings: the separator of a title *)

Module JsStringFacts.
Import JsString.

Lemma prefix_char (d c : ascii) (s : string) :
  String.prefix (String d EmptyString) (String c s) = Ascii.eqb d c.
Proof.
  simpl. destruct (ascii_dec d c) as [->|Hne].
  - rewrite Ascii.eqb_refl. by destruct s.
  - symmetry. by apply Ascii.eqb_neq.
Qed.

Lemma includes_cons (d c : ascii) (s : string) :
  includes (String c s) (String d EmptyString)
  = Ascii.eqb d c || includes s (String d EmptyString).
Proof.
  change (includes (String c s) (String d EmptyString))
    with (if String.prefix (String d EmptyString) (String c s)
          then true else includes s (String d EmptyString)).
  rewrite prefix_char. by destruct (Ascii.eqb d c).
Qed.


Lemma indexOf_from_unfold (i : Z) (s sub : string) :
  indexOf_from i s sub
  = if String.prefix sub s then i
    else match s with
         | EmptyString => -1
         | String _ s' => indexOf_from (i + 1) s' sub
         end.
Proof. by destruct s. Qed.

Lemma indexOf_from_spec (s sub : string) (i j : Z) :
  0 <= j ->
  indexOf_from i s sub
  = if indexOf_from j s sub <? 0 then -1 else i - j + indexOf_from j s sub.
Proof.
  revert i j. induction s as [|c s IH]; intros i j Hj;
    rewrite (indexOf_from_unfold i), (indexOf_from_unfold j);
    destruct (String.prefix sub _);
    try (destruct (Z.ltb_spec j 0); lia); [done|].
  rewrite (IH (i + 1) (j + 1)) by lia.
  destruct (indexOf_from (j + 1) s sub <? 0); lia.
Qed.

Lemma indexOf_cons (d c : ascii) (s : string) :
  indexOf (String c s) (String d EmptyString)
  = if Ascii.eqb d c then 0
    else if indexOf s (String d EmptyString) <? 0 then -1
         else indexOf s (String d EmptyString) + 1.
Proof.
  unfold indexOf.
  change (indexOf_from 0 (String c s) (String d EmptyString))
    with (if String.prefix (String d EmptyString) (String c s)
          then 0 else indexOf_from (0 + 1) s (String d EmptyString)).
  rewrite prefix_char. destruct (Ascii.eqb d c); [done|].
  rewrite (indexOf_from_spec s _ (0 + 1) 0) by lia.
  destruct (indexOf_from 0 s (String d EmptyString) <? 0); lia.
Qed.

(** [includes] is [indexOf] not answering [-1]. *)
Lemma includes_indexOf (d : ascii) (s : string) :
  (includes s (String d EmptyString) = true
   /\ 0 <= indexOf s (String d EmptyString))
  \/ (includes s (String d EmptyString) = false
      /\ indexOf s (String d EmptyString) = -1).
Proof.
  induction s as [|c s IH]; [by right|].
  rewrite includes_cons, indexOf_cons.
  destruct (Ascii.eqb d c); csimpl; [left; split; [done|lia]|].
  destruct IH as [[-> Hi]|[-> ->]]; [left|right]; split; try done.
  - destruct (Z.ltb_spec (indexOf s (String d EmptyString)) 0); lia.
Qed.

Lemma is_delimiter_eqb (c : ascii) :
  is_delimiter c = Ascii.eqb "-" c || Ascii.eqb "(" c.
Proof. unfold is_delimiter. by rewrite (Ascii.eqb_sym c "-"), (Ascii.eqb_sym c "("). Qed.

Lemma has_delimiter_includes (s : string) :
  has_delimiter s = includes s "-" || includes s "(".
Proof.
  unfold has_delimiter. induction s as [|c s IH]; [done|].
  rewrite !includes_cons. cbn [split_at_delimiter]. rewrite is_delimiter_eqb.
  destruct (Ascii.eqb "-" c), (Ascii.eqb "(" c); cbn [orb]; try done;
    [by rewrite orb_true_r|].
  rewrite <- IH. by destruct (split_at_delimiter s) as [[? ?]|].
Qed.

Lemma split_at_delimiter_append (s base suffix : string) :
  split_at_delimiter s = Some (base, suffix) ->
  exists d, s = (base ++ String d suffix)%string.
Proof.
  revert base. induction s as [|c s IH]; intros base; simpl; [done|].
  destruct (is_delimiter c).
  - intros [= <- <-]. by exists c.
  - destruct (split_at_delimiter s) as [[b a]|]; [|done].
    intros [= <- <-]. destruct (IH b eq_refl) as [d ->]. by exists d.
Qed.

(** The three-way choice with [Math.min] finds the earliest delimiter. *)
Lemma separatorIndex_split (s base suffix : string) :
  split_at_delimiter s = Some (base, suffix) ->
  separatorIndex s = Z.of_nat (String.length base).
Proof.
  revert base. induction s as [|c s IH]; intros base; [done|].
  unfold separatorIndex. rewrite !includes_cons, !indexOf_cons.
  cbn [split_at_delimiter]. rewrite is_delimiter_eqb.
  pose proof (includes_indexOf "-" s) as Hh.
  pose proof (includes_indexOf "(" s) as Hp.
  destruct (Ascii.eqb "-" c) eqn:Eh, (Ascii.eqb "(" c) eqn:Ep;
    cbn [orb andb].
  - intros [= <- <-]. done.
  - intros [= <- <-]. cbn [String.length].
    destruct Hp as [[-> Hp]|[-> Hp]]; [|done].
    destruct (Z.ltb_spec (indexOf s "(") 0); lia.
  - intros [= <- <-]. cbn [String.length].
    destruct Hh as [[-> Hh]|[-> Hh]]; [|done]. cbn [orb andb].
    destruct (Z.ltb_spec (indexOf s "-") 0); lia.
  - destruct (split_at_delimiter s) as [[b a]|] eqn:Es; [|done].
    intros [= <- <-]. specialize (IH b eq_refl).
    assert (Hd : has_delimiter s = true) by (unfold has_delimiter; by rewrite Es).
    rewrite has_delimiter_includes in Hd.
    unfold separatorIndex in IH. cbn [String.length].
    destruct Hh as [[Hh1 Hh2]|[Hh1 Hh2]], Hp as [[Hp1 Hp2]|[Hp1 Hp2]];
      rewrite Hh1, Hp1 in *; cbn [orb andb] in *; try done;
      repeat match goal with
      | |- context [?x <? 0] => destruct (Z.ltb_spec x 0)
      end; lia.
Qed.

Lemma substring_0_append (b rest : string) :
  String.substring 0 (String.length b) (b ++ rest)%string = b.
Proof.
  induction b as [|c b IH]; simpl; [by destruct rest|]. by rewrite IH.
Qed.

Lemma substring_all (a : string) : String.substring 0 (String.length a) a = a.
Proof. induction a as [|c a IH]; simpl; [done|]. by rewrite IH. Qed.

Lemma substring_skip_append (b a : string) (d : ascii) :
  String.substring (S (String.length b)) (String.length a)
    (b ++ String d a)%string = a.
Proof.
  induction b as [|c b IH]; simpl; [apply substring_all|]. exact IH.
Qed.

Lemma length_append (b a : string) :
  String.length (b ++ a)%string = (String.length b + String.length a)%nat.
Proof. induction b as [|c b IH]; simpl; [done|]. by rewrite IH. Qed.

(** The two [substring] calls cut the title into the part before and the
    part after the earliest delimiter. *)
Lemma title_parts_split (s base suffix : string) :
  split_at_delimiter s = Some (base, suffix) ->
  titleBeforeSeparator s = trim base /\ titleAfterSeparator s = trim suffix.
Proof.
  intros Hs. unfold titleBeforeSeparator, titleAfterSeparator.
  rewrite (separatorIndex_split _ _ _ Hs).
  destruct (split_at_delimiter_append _ _ _ Hs) as [d ->].
  unfold substring_from, substring, clamp.
  rewrite length_append. simpl String.length.
  split; f_equal.
  - replace (Z.to_nat (Z.min _ _)) with 0%nat by lia.
    replace (Z.to_nat (_ - _)) with (String.length base) by lia.
    apply substring_0_append.
  - replace (Z.to_nat (Z.min _ _)) with (S (String.length base)) by lia.
    replace (Z.to_nat (_ - _)) with (String.length suffix) by lia.
    apply substring_skip_append.
Qed.

Lemma lower_char_delimiter (c : ascii) :
  is_delimiter (lower_char c) = is_delimiter c.
Proof. by destruct c as [[] [] [] [] [] [] [] []]. Qed.

(** Lower-casing moves no delimiter. *)
Lemma split_at_delimiter_toLowerCase (s : string) :
  split_at_delimiter (toLowerCase s)
  = match split_at_delimiter s with
    | Some (base, suffix) => Some (toLowerCase base, toLowerCase suffix)
    | None => None
    end.
Proof.
  induction s as [|c s IH]; simpl; [done|].
  rewrite lower_char_delimiter. destruct (is_delimiter c); [done|].
  rewrite IH. by destruct (split_at_delimiter s) as [[? ?]|].
Qed.

Lemma includes_unfold (s sub : string) :
  includes s sub
  = if String.prefix sub s then true
    else match s with
         | EmptyString => false
         | String _ s' => includes s' sub
         end.
Proof. by destruct s. Qed.

Lemma prefix_cons (a c : ascii) (w s : string) :
  String.prefix (String a w) (String c s)
  = Ascii.eqb a c && String.prefix w s.
Proof.
  simpl. destruct (ascii_dec a c) as [->|Hne].
  - by rewrite Ascii.eqb_refl.
  - apply Ascii.eqb_neq in Hne. by rewrite Hne.
Qed.

Lemma prefix_empty (w : string) :
  String.prefix w EmptyString = match w with EmptyString => true | _ => false end.
Proof. by destruct w. Qed.

Lemma prefix_nil (s : string) : String.prefix EmptyString s = true.
Proof. by destruct s. Qed.

Lemma includes_trimStart (s w : string) :
  starts_tight w = true -> includes (trimStart s) w = includes s w.
Proof.
  intros Hw. destruct w as [|a w]; [done|]. simpl in Hw.
  induction s as [|c s IH]; [done|].
  cbn [trimStart]. destruct (isWhiteSpace c) eqn:Hc; [|done].
  rewrite IH, (includes_unfold (String c s)), prefix_cons.
  destruct (Ascii.eqb_spec a c) as [->|]; [|done].
  rewrite Hc in Hw. done.
Qed.

Lemma prefix_trimEnd (w s : string) :
  ends_tight w = true -> String.prefix w (trimEnd s) = String.prefix w s.
Proof.
  revert w. induction s as [|c s IH]; intros w Hw; [done|].
  destruct w as [|a w]; [done|]. cbn [trimEnd].
  rewrite (prefix_cons a c w s).
  destruct w as [|b w].
  - simpl in Hw. rewrite (prefix_nil s). destruct (trimEnd s) as [|c' r].
    + destruct (isWhiteSpace c) eqn:Hc.
      * rewrite prefix_empty. destruct (Ascii.eqb_spec a c) as [->|]; [|done].
        rewrite Hc in Hw. done.
      * by rewrite prefix_cons, prefix_nil.
    + by rewrite prefix_cons, prefix_nil.
  - assert (Hw' : ends_tight (String b w) = true) by exact Hw.
    specialize (IH _ Hw'). destruct (trimEnd s) as [|c' r].
    + rewrite <- IH, prefix_empty, andb_false_r.
      destruct (isWhiteSpace c); [done|].
      by rewrite prefix_cons, prefix_empty, andb_false_r.
    + by rewrite prefix_cons, IH.
Qed.

Lemma includes_trimEnd (s w : string) :
  ends_tight w = true -> includes (trimEnd s) w = includes s w.
Proof.
  intros Hw. induction s as [|c s IH]; [done|].
  rewrite (includes_unfold (String c s)), <- (prefix_trimEnd w (String c s)) by done.
  rewrite <- IH. cbn [trimEnd]. destruct (trimEnd s) as [|c' r] eqn:Hr.
  - destruct (isWhiteSpace c).
    + rewrite !includes_unfold, prefix_empty. by destruct w.
    + rewrite (includes_unfold (String c EmptyString)).
      destruct (String.prefix w (String c EmptyString)); [done|].
      rewrite !includes_unfold, prefix_empty. by destruct w.
  - by rewrite (includes_unfold (String c (String c' r))).
Qed.

(** Trimming the text does not change whether a tight word occurs in it. *)
Lemma includes_trim (s w : string) :
  starts_tight w = true -> ends_tight w = true ->
  includes (trim s) w = includes s w.
Proof.
  intros Hs He. unfold trim. by rewrite includes_trimEnd, includes_trimStart.
Qed.

Lemma existsb_includes_trim (s : string) (words : list string) :
  forallb (fun w => starts_tight w && ends_tight w) words = true ->
  existsb (fun w => includes (trim s) w) words = existsb (includes s) words.
Proof.
  induction words as [|w words IH]; [done|]. cbn [forallb existsb].
  intros [[Hs He]%andb_prop Hall]%andb_prop.
  by rewrite includes_trim, IH.
Qed.

End JsStringFacts.

(** ** Duplicate resolver: the map after each record *)

Section Resolver.
Import JsMap JsMapFacts.
Implicit Types (m : TrackMap) (track t : Track) (tracks l : list Track).

Lemma dedup_map_snoc l t : dedup_map (l ++ [t]) = dedup_step (dedup_map l) t.
Proof. unfold dedup_map. by rewrite fold_left_app. Qed.

Lemma replace_track_filter m t :
  NoDup (keys m) ->
  replace_track (isrc t) t m
  = filter (fun e => e.1 ≠ isrc t) m ++ [(isrc t, t)].
Proof.
  intros Hnd. unfold replace_track.
  rewrite set_absent by by apply delete_not_elem.
  by rewrite delete_filter.
Qed.

(** The three outcomes of one step: a new key goes last, a present key is
    either left alone or taken out and put back last with the new record. *)
Lemma dedup_step_shape m t :
  ((isrc t ∉ keys m) /\ dedup_step m t = m ++ [(isrc t, t)])
  \/ ((isrc t ∈ keys m)
      /\ (dedup_step m t = m \/ dedup_step m t = replace_track (isrc t) t m)).
Proof.
  unfold dedup_step. destruct (has (isrc t) m) eqn:Hhas; csimpl.
  2:{ left. apply has_false in Hhas. split; [done|]. by apply set_absent. }
  right. split; [by apply has_true|].
  destruct (get (isrc t) m) as [p|]; [|by left].
  destruct (external t), (external p); csimpl;
    destruct (String.eqb_spec (album_type t) "single") as [Hs|];
    try rewrite Hs; csimpl;
    destruct (String.eqb_spec (album_type t) "album") as [Ha|];
    try rewrite Ha; csimpl;
    repeat match goal with
    | |- context [String.eqb (album_type ?x) ?s] =>
        destruct (String.eqb_spec (album_type x) s); csimpl
    end; auto.
Qed.

Lemma keyed_filter (P : option string * Track -> Prop)
    `{!forall e, Decision (P e)} m :
  keyed m -> keyed (filter P m).
Proof.
  unfold keyed. rewrite !Forall_forall.
  intros Hk e [_ He]%list_elem_of_filter. by apply Hk.
Qed.

Lemma well_formed_empty : well_formed empty.
Proof. split; [apply Forall_nil_2 | apply NoDup_nil_2]. Qed.

Lemma well_formed_snoc m t :
  well_formed m -> isrc t ∉ keys m -> well_formed (m ++ [(isrc t, t)]).
Proof.
  intros [Hk Hnd] Hnin. split.
  - apply Forall_app. split; [done|]. by apply Forall_singleton.
  - unfold keys in *. rewrite fmap_app. csimpl.
    apply NoDup_app. split; [done|]. split; [|apply NoDup_singleton].
    intros x Hx ->%list_elem_of_singleton. done.
Qed.

Lemma well_formed_replace m t :
  well_formed m -> well_formed (replace_track (isrc t) t m).
Proof.
  intros [Hk Hnd]. rewrite replace_track_filter by done.
  rewrite <- delete_filter by done.
  apply well_formed_snoc; [|by apply delete_not_elem].
  split; [|by apply NoDup_keys_delete].
  rewrite delete_filter by done. by apply keyed_filter.
Qed.

Lemma dedup_step_well_formed m t :
  well_formed m -> well_formed (dedup_step m t).
Proof.
  intros Hwf.
  destruct (dedup_step_shape m t) as [[Hnin ->]|[_ [->| ->]]];
    [by apply well_formed_snoc | done | by apply well_formed_replace].
Qed.

Lemma dedup_map_well_formed l : well_formed (dedup_map l).
Proof.
  induction l as [|t l IH] using rev_ind; [apply well_formed_empty|].
  rewrite dedup_map_snoc. by apply dedup_step_well_formed.
Qed.

(** A step either leaves the selected records alone or removes the group
    of the new record and puts the new record last. *)
Lemma dedup_step_values m t :
  well_formed m ->
  values (dedup_step m t) = values m
  \/ values (dedup_step m t)
     = filter (fun x => isrc x ≠ isrc t) (values m) ++ [t].
Proof.
  intros [Hk Hnd].
  assert (Hfilter :
    values (filter (fun e : option string * Track => e.1 ≠ isrc t) m)
    = filter (fun x => isrc x ≠ isrc t) (values m)).
  { clear Hnd. unfold values. induction Hk as [|[k v] m Hkv _ IH]; [done|].
    simpl in Hkv. subst k. csimpl.
    destruct (decide (isrc v = isrc t)) as [Heq|Hne].
    - rewrite !filter_cons_False by (simpl; intros Hc; by apply Hc). done.
    - rewrite !filter_cons_True by done. csimpl. by rewrite IH. }
  destruct (dedup_step_shape m t) as [[Hnin ->]|[_ [->| ->]]].
  - right. unfold values in *. rewrite fmap_app. csimpl. f_equal.
    rewrite <- Hfilter. f_equal. symmetry. apply filter_all.
    apply Forall_forall. intros [k v] Hin Heq. simpl in Heq. subst k.
    apply Hnin. unfold keys. apply list_elem_of_fmap. by exists (isrc t, v).
  - by left.
  - right. rewrite replace_track_filter by done.
    unfold values in *. rewrite fmap_app. csimpl. by rewrite Hfilter.
Qed.

Lemma dedup_step_keys m t k :
  well_formed m ->
  k ∈ keys (dedup_step m t) <-> k ∈ keys m \/ k = isrc t.
Proof.
  intros [Hk Hnd].
  destruct (dedup_step_shape m t) as [[Hnin ->]|[Hin [->| ->]]].
  - unfold keys. rewrite fmap_app, elem_of_app. csimpl.
    by rewrite list_elem_of_singleton.
  - split; [by left|]. intros [?| ->]; done.
  - rewrite replace_track_filter by done.
    unfold keys. rewrite fmap_app, elem_of_app. csimpl.
    rewrite list_elem_of_singleton, !list_elem_of_fmap. split.
    + intros [([k0 v0] & -> & [_ Hin0]%list_elem_of_filter)| ->];
        [left|by right]. by exists (k0, v0).
    + intros [([k0 v0] & -> & Hin0)| ->]; [|by right]. csimpl.
      destruct (decide (k0 = isrc t)) as [->|Hne]; [by right|left].
      exists (k0, v0). split; [done|]. by apply list_elem_of_filter.
Qed.

Lemma keyed_values m : keyed m -> isrc <$> values m = keys m.
Proof.
  unfold values, keys. induction 1 as [|[k v] m Hkv _ IH]; [done|].
  csimpl. simpl in Hkv. by rewrite IH, Hkv.
Qed.

Lemma keyed_values_restrict m k :
  keyed m -> values (restrict k m) = filter (fun t => isrc t = k) (values m).
Proof.
  unfold values, restrict. induction 1 as [|[k0 v] m Hkv _ IH]; [done|].
  simpl in Hkv. subst k0. csimpl.
  destruct (decide (isrc v = k)) as [Heq|Hne].
  - rewrite !filter_cons_True by done. csimpl. by rewrite IH.
  - rewrite !filter_cons_False by done. done.
Qed.

Lemma restrict_replace_eq m t :
  restrict (isrc t) (replace_track (isrc t) t m)
  = replace_track (isrc t) t (restrict (isrc t) m).
Proof.
  unfold replace_track. by rewrite restrict_set_eq, restrict_delete_eq.
Qed.

Lemma restrict_replace_ne m t k :
  isrc t ≠ k -> restrict k (replace_track (isrc t) t m) = restrict k m.
Proof.
  intros Hne. unfold replace_track.
  by rewrite restrict_set_ne, restrict_delete_ne.
Qed.

(** A step looks at, and changes, only the group of the new record. *)
Lemma dedup_step_restrict m t k :
  restrict k (dedup_step m t)
  = if decide (isrc t = k) then dedup_step (restrict k m) t else restrict k m.
Proof.
  destruct (decide (isrc t = k)) as [<-|Hne].
  - unfold dedup_step, has. rewrite get_restrict.
    destruct (get (isrc t) m) as [p|]; csimpl; [|by rewrite restrict_set_eq].
    repeat match goal with
    | |- context [if ?b then _ else _] => destruct b; csimpl
    end; by rewrite ?restrict_replace_eq.
  - destruct (dedup_step_shape m t) as [[Hnin ->]|[_ [->| ->]]].
    + unfold restrict. rewrite filter_app, filter_cons_False by done.
      by rewrite filter_nil, app_nil_r.
    + done.
    + by apply restrict_replace_ne.
Qed.

Lemma dedup_map_restrict l k :
  restrict k (dedup_map l) = dedup_map (filter (fun t => isrc t = k) l).
Proof.
  induction l as [|t l IH] using rev_ind; [done|].
  rewrite filter_app, dedup_map_snoc, dedup_step_restrict.
  destruct (decide (isrc t = k)) as [Heq|Hne].
  - rewrite filter_cons_True by done. rewrite filter_nil.
    by rewrite dedup_map_snoc, IH.
  - rewrite filter_cons_False by done. by rewrite filter_nil, app_nil_r.
Qed.

Lemma dedup_map_keys l k : k ∈ keys (dedup_map l) <-> k ∈ isrc <$> l.
Proof.
  induction l as [|t l IH] using rev_ind; [done|].
  rewrite dedup_map_snoc, dedup_step_keys by apply dedup_map_well_formed.
  rewrite IH, fmap_app, elem_of_app. csimpl.
  by rewrite list_elem_of_singleton.
Qed.

Lemma dedup_map_sublist l : values (dedup_map l) `sublist_of` l.
Proof.
  induction l as [|t l IH] using rev_ind; [done|].
  rewrite dedup_map_snoc.
  destruct (dedup_step_values (dedup_map l) t) as [-> | ->];
    [apply dedup_map_well_formed | |].
  - by apply sublist_inserts_r.
  - apply sublist_app; [|done].
    etrans; [apply sublist_filter | exact IH].
Qed.

End Resolver.

Lemma StronglySorted_sublist {A} (R : A -> A -> Prop) (l1 l2 : list A) :
  l1 `sublist_of` l2 -> StronglySorted R l2 -> StronglySorted R l1.
Proof.
  induction 1 as [|x l1 l2 Hsub IH|x l1 l2 Hsub IH];
    rewrite ?StronglySorted_cons; [done| |].
  - intros [Hall Hs]. split; [|by apply IH].
    rewrite Forall_forall in Hall |- *.
    intros y Hy. apply Hall. by eapply elem_of_sublist.
  - intros [_ Hs]. by apply IH.
Qed.

(** ** Duplicate resolver: the claims *)

Section ResolverClaims.
Import JsMap JsMapFacts.

Example resolver_example_1 :
  removeDuplicateTracks [Sample.early_single; Sample.late_album]
  = [Sample.late_album].
Proof. reflexivity. Qed.

Example resolver_example_2 :
  removeDuplicateTracks [Sample.first_compilation; Sample.second_compilation]
  = [Sample.second_compilation].
Proof. reflexivity. Qed.

Example resolver_example_lost :
  removeDuplicateTracks [Sample.lost1; Sample.lost2] = [Sample.lost1].
Proof. reflexivity. Qed.

Example resolver_example_order :
  removeDuplicateTracks
    [Sample.early_single; Sample.other_single; Sample.late_album]
  = [Sample.other_single; Sample.late_album].
Proof. reflexivity. Qed.

Lemma removeDuplicateTracks_snoc l t :
  removeDuplicateTracks (l ++ [t]) = removeDuplicateTracks l
  \/ removeDuplicateTracks (l ++ [t])
     = filter (fun x => isrc x ≠ isrc t) (removeDuplicateTracks l) ++ [t].
Proof.
  unfold removeDuplicateTracks. rewrite dedup_map_snoc.
  apply dedup_step_values, dedup_map_well_formed.
Qed.

Lemma removeDuplicateTracks_group l k :
  group_of k (removeDuplicateTracks l) = removeDuplicateTracks (group_of k l).
Proof.
  unfold removeDuplicateTracks, group_of.
  rewrite <- keyed_values_restrict by apply dedup_map_well_formed.
  by rewrite dedup_map_restrict.
Qed.

Lemma removeDuplicateTracks_isrc l :
  isrc <$> removeDuplicateTracks l = keys (dedup_map l).
Proof. apply keyed_values, dedup_map_well_formed. Qed.

(** A list of records of one identifier resolves to one record, or to none
    when the list is empty. *)
Lemma removeDuplicateTracks_one_group l k :
  Forall (fun t => isrc t = k) l ->
  length (removeDuplicateTracks l) = Nat.min 1 (length l).
Proof.
  intros Hall.
  assert (Hnd : NoDup (isrc <$> removeDuplicateTracks l)).
  { rewrite removeDuplicateTracks_isrc. apply dedup_map_well_formed. }
  assert (Hk : Forall (fun t => isrc t = k) (removeDuplicateTracks l)).
  { rewrite Forall_forall in Hall |- *. intros t Ht. apply Hall.
    eapply elem_of_sublist; [exact Ht | apply dedup_map_sublist]. }
  destruct l as [|t0 l0]; [done|].
  assert (Hin : k ∈ isrc <$> removeDuplicateTracks (t0 :: l0)).
  { rewrite removeDuplicateTracks_isrc, dedup_map_keys.
    apply Forall_cons in Hall as [<- _]. csimpl. left. }
  destruct (removeDuplicateTracks (t0 :: l0)) as [|a [|b r]]; csimpl in *.
  - by apply elem_of_nil in Hin.
  - done.
  - apply Forall_cons in Hk as [Ha Hk]. apply Forall_cons in Hk as [Hb _].
    apply NoDup_cons in Hnd as [Hnd _]. exfalso. apply Hnd.
    rewrite Ha, <- Hb. left.
Qed.

(** C1, as the claim states it, fails: two records without an identifier
    share the key [undefined] of the map, and the resolver keeps one of
    them. *)
Lemma identifierless_records_merge :
  ~ (forall t, t ∈ [Sample.lost1; Sample.lost2] -> isrc t = None ->
       t ∈ removeDuplicateTracks [Sample.lost1; Sample.lost2]).
Proof.
  intros H. specialize (H Sample.lost2).
  assert (Hin : Sample.lost2 ∈ [Sample.lost1]).
  { apply H; [right; left | reflexivity]. }
  apply list_elem_of_singleton in Hin. discriminate Hin.
Qed.

(** C1, amended: the records without an identifier are never merged with a
    record that has one, but they form one group among themselves, filed
    under the absent identifier and resolved like any other group. The
    identifier-less part of the output is the resolver's result on the
    identifier-less records alone; it holds one record when the input has
    any, and a record that is the only one without an identifier comes out
    unchanged. *)
Theorem identifierless_records_form_one_group (tracks : list Track) :
  group_of None (removeDuplicateTracks tracks)
  = removeDuplicateTracks (group_of None tracks)
  /\ length (group_of None (removeDuplicateTracks tracks))
     = Nat.min 1 (length (group_of None tracks))
  /\ forall t, group_of None tracks = [t] ->
       group_of None (removeDuplicateTracks tracks) = [t].
Proof.
  split; [apply removeDuplicateTracks_group|]. split.
  - rewrite removeDuplicateTracks_group.
    apply (removeDuplicateTracks_one_group _ None).
    apply Forall_forall. by intros t [? _]%list_elem_of_filter.
  - intros t Ht. rewrite removeDuplicateTracks_group. by rewrite Ht.
Qed.

Lemma identifierless_records_form_one_group_witness :
  group_of None [Sample.early_single; Sample.lost1] = [Sample.lost1]
  /\ group_of None (removeDuplicateTracks [Sample.early_single; Sample.lost1])
     = [Sample.lost1].
Proof.
  split; [reflexivity|].
  apply (proj2 (proj2 (identifierless_records_form_one_group
                         [Sample.early_single; Sample.lost1]))).
  reflexivity.
Defined.

(** C2: the output holds at most one record per identifier, and the
    identifiers of the output are exactly those of the input, the absent
    identifier counting as one. *)
Theorem removeDuplicateTracks_one_per_identifier (tracks : list Track) :
  NoDup (isrc <$> removeDuplicateTracks tracks)
  /\ forall k, k ∈ isrc <$> tracks <-> k ∈ isrc <$> removeDuplicateTracks tracks.
Proof.
  rewrite removeDuplicateTracks_isrc. split.
  - apply dedup_map_well_formed.
  - intros k. by rewrite dedup_map_keys.
Qed.

(** C3, as the claim states it, fails: a non-external compilation record
    does not replace an external single. *)
Lemma compilation_keeps_external_single :
  external Sample.own_compilation = false
  /\ external Sample.guest_single = true
  /\ album_type Sample.guest_single = "single"
  /\ isrc Sample.own_compilation = isrc Sample.guest_single
  /\ removeDuplicateTracks [Sample.guest_single; Sample.own_compilation]
     = [Sample.guest_single].
Proof. repeat split. Qed.

(** C3, amended: a non-external record meeting an external selection of
    category single, album or compilation replaces it when its own category
    is single or album, and, when its category is compilation, only if the
    selection is a compilation too; with any other category the selection
    stays. *)
Theorem non_external_against_external (m : TrackMap) (track prev : Track) :
  get (isrc track) m = Some prev ->
  external track = false ->
  external prev = true ->
  album_type prev ∈ ["single"; "album"; "compilation"] ->
  get (isrc track) (dedup_step m track)
  = Some (if decide (album_type track = "single" \/ album_type track = "album"
                     \/ (album_type track = "compilation"
                         /\ album_type prev = "compilation"))
          then track else prev).
Proof.
  intros Hget Ht Hp Hcat. unfold dedup_step, has. rewrite Hget, Ht, Hp. csimpl.
  assert (Hrep : get (isrc track) (replace_track (isrc track) track m)
                 = Some track) by apply get_set_eq.
  assert (Hrep2 : get (isrc track)
                    (replace_track (isrc track) track
                       (replace_track (isrc track) track m))
                 = Some track) by apply get_set_eq.
  rewrite !elem_of_cons, elem_of_nil in Hcat.
  destruct (String.eqb_spec (album_type track) "single") as [Hs|Hs];
    destruct (String.eqb_spec (album_type track) "album") as [Ha|Ha];
    destruct (String.eqb_spec (album_type track) "compilation") as [Hc|Hc];
    try congruence;
    destruct Hcat as [Hq|[Hq|[Hq|[]]]]; rewrite Hq; csimpl;
    case_decide; try done; try congruence; exfalso; intuition congruence.
Qed.

Lemma non_external_against_external_witness :
  get (isrc Sample.own_single)
    (dedup_step [(isrc Sample.guest_single, Sample.guest_single)]
       Sample.own_single)
  = Some Sample.own_single.
Proof.
  apply (non_external_against_external
           [(isrc Sample.guest_single, Sample.guest_single)]
           Sample.own_single Sample.guest_single);
    [reflexivity | reflexivity | reflexivity | vm_compute; left].
Defined.

(** C4, as the claim states it, fails: a replacement takes the group out of
    its place and puts it last, so the groups do not come out in the order
    of their first appearance. *)
Lemma replaced_group_moves_last :
  isrc <$> removeDuplicateTracks
             [Sample.early_single; Sample.other_single; Sample.late_album]
  ≠ first_seen
      (isrc <$> [Sample.early_single; Sample.other_single; Sample.late_album]).
Proof. vm_compute. discriminate. Qed.

(** C4, amended: the surviving records come out in the order in which they
    themselves stand in the input (the output is a subsequence of the
    input). Reading one more record either changes nothing or removes the
    group of that record from its place and puts the record last. Hence an
    order that holds between every earlier and every later record of the
    input, such as ascending release date, holds in the output. *)
Theorem removeDuplicateTracks_keeps_input_order (tracks : list Track) :
  removeDuplicateTracks tracks `sublist_of` tracks
  /\ (forall t,
        removeDuplicateTracks (tracks ++ [t]) = removeDuplicateTracks tracks
        \/ removeDuplicateTracks (tracks ++ [t])
           = filter (fun x => isrc x ≠ isrc t) (removeDuplicateTracks tracks)
             ++ [t])
  /\ (forall R : Track -> Track -> Prop,
        StronglySorted R tracks ->
        StronglySorted R (removeDuplicateTracks tracks)).
Proof.
  split; [apply dedup_map_sublist|]. split.
  - intros t. apply removeDuplicateTracks_snoc.
  - intros R. apply StronglySorted_sublist, dedup_map_sublist.
Qed.

Lemma removeDuplicateTracks_keeps_input_order_witness :
  let by_year := fun a b => Sample.release_year a <= Sample.release_year b in
  StronglySorted by_year
    [Sample.early_single; Sample.other_single; Sample.late_album]
  /\ StronglySorted by_year
       (removeDuplicateTracks
          [Sample.early_single; Sample.other_single; Sample.late_album]).
Proof.
  intros by_year.
  assert (Hin : StronglySorted by_year
            [Sample.early_single; Sample.other_single; Sample.late_album]).
  { repeat (apply SSorted_cons; [|repeat apply Forall_cons_2; try apply Forall_nil_2;
                                   unfold by_year; vm_compute; discriminate]).
    apply SSorted_nil. }
  split; [exact Hin|].
  apply (proj2 (proj2 (removeDuplicateTracks_keeps_input_order
                         [Sample.early_single; Sample.other_single;
                          Sample.late_album]))).
  exact Hin.
Defined.

End ResolverClaims.

(** ** Alternate-version filter: the map after each record *)

Section Filter.
Import JsMap JsMapFacts JsStringFacts.
Implicit Types (m : TrackMap) (track t : Track) (tracks l : list Track).

Lemma alternate_step_eq tracks m t :
  alternate_step tracks m t
  = if is_alternate tracks t then m else set (isrc t) t m.
Proof.
  unfold alternate_step, is_alternate.
  destruct (JsString.includes (title t) "-" || JsString.includes (title t) "(");
    [|done]. cbn [andb].
  destruct (hasKeyword _ && negb (hasException _)); [|done]. cbn [andb].
  by destruct (matchingTrack _ _).
Qed.

Lemma find_existsb {A} (f : A -> bool) (l : list A) :
  match List.find f l with Some _ => true | None => false end = existsb f l.
Proof. induction l as [|x l IH]; simpl; [done|]. by destruct (f x). Qed.

(** The test of the code is the test of the specification. *)
Lemma is_alternate_spec tracks t :
  is_alternate tracks t = drops_as_alternate tracks t.
Proof.
  unfold is_alternate, drops_as_alternate.
  rewrite <- has_delimiter_includes.
  destruct (has_delimiter (title t)) eqn:Hd; [|done]. cbn [andb].
  rewrite split_at_delimiter_toLowerCase.
  unfold has_delimiter in Hd.
  destruct (split_at_delimiter (title t)) as [[base suffix]|] eqn:Hs; [|done].
  assert (Hlow : split_at_delimiter (JsString.toLowerCase (title t))
                 = Some (JsString.toLowerCase base, JsString.toLowerCase suffix)).
  { by rewrite split_at_delimiter_toLowerCase, Hs. }
  destruct (title_parts_split _ _ _ Hlow) as [-> ->].
  unfold matchingTrack, hasKeyword, hasException.
  rewrite find_existsb, !existsb_includes_trim by reflexivity. done.
Qed.

Lemma alternate_map_snoc tracks l t :
  alternate_map tracks (l ++ [t])
  = alternate_step tracks (alternate_map tracks l) t.
Proof. unfold alternate_map. by rewrite fold_left_app. Qed.

Lemma well_formed_set m t : well_formed m -> well_formed (set (isrc t) t m).
Proof.
  intros [Hk Hnd]. split; [|by apply NoDup_keys_set].
  clear Hnd. unfold keyed in *.
  induction Hk as [|[k v] m Hkv Hm IH]; csimpl.
  - by apply Forall_singleton.
  - case_decide; apply Forall_cons; split; done.
Qed.

Lemma alternate_map_well_formed tracks l : well_formed (alternate_map tracks l).
Proof.
  induction l as [|t l IH] using rev_ind; [apply well_formed_empty|].
  rewrite alternate_map_snoc, alternate_step_eq.
  destruct (is_alternate tracks t); [done | by apply well_formed_set].
Qed.

Lemma alternate_map_keys tracks l k :
  k ∈ keys (alternate_map tracks l) ->
  exists t, t ∈ l /\ isrc t = k /\ is_alternate tracks t = false.
Proof.
  induction l as [|t l IH] using rev_ind; [by intros ?%elem_of_nil|].
  rewrite alternate_map_snoc, alternate_step_eq.
  destruct (is_alternate tracks t) eqn:Halt.
  - intros (t' & ? & ? & ?)%IH. exists t'. rewrite elem_of_app. auto.
  - destruct (decide (k ∈ keys (alternate_map tracks l))) as [Hin|Hnin].
    + intros _. destruct (IH Hin) as (t' & ? & ? & ?).
      exists t'. rewrite elem_of_app. auto.
    + intros Hk. destruct (decide (isrc t ∈ keys (alternate_map tracks l)))
        as [Hin'|Hnin'].
      * rewrite keys_set_present in Hk by done. contradiction.
      * rewrite set_absent in Hk by done. unfold keys in Hk, Hnin.
        rewrite fmap_app, elem_of_app in Hk. destruct Hk as [Hk|Hk]; [done|].
        apply list_elem_of_singleton in Hk. csimpl in Hk. subst k.
        exists t. rewrite elem_of_app, list_elem_of_singleton. auto.
Qed.

(** With pairwise distinct identifiers no [set] meets a present key: the
    map lists the records that are not alternates, in input order. *)
Lemma alternate_map_distinct tracks l :
  NoDup (isrc <$> l) ->
  values (alternate_map tracks l)
  = filter (fun t => is_alternate tracks t = false) l.
Proof.
  induction l as [|t l IH] using rev_ind; [done|].
  rewrite fmap_app, NoDup_app. csimpl. intros (Hnd & Hnin & _).
  rewrite alternate_map_snoc, alternate_step_eq, filter_app.
  destruct (is_alternate tracks t) eqn:Halt.
  - rewrite filter_cons_False by (rewrite Halt; done).
    rewrite filter_nil, app_nil_r. by apply IH.
  - rewrite filter_cons_True by done. rewrite filter_nil.
    rewrite set_absent.
    + unfold values in *. rewrite fmap_app. csimpl. by rewrite IH.
    + intros (t' & Hin & Heq & _)%alternate_map_keys.
      apply (Hnin (isrc t)); [|left]. rewrite <- Heq.
      apply list_elem_of_fmap. by exists t'.
Qed.

Lemma values_set_submseteq m t : values (set (isrc t) t m) ⊆+ t :: values m.
Proof.
  unfold values. induction m as [|[k v] m IH]; csimpl; [done|].
  case_decide; csimpl.
  - apply submseteq_skip, submseteq_cons. done.
  - etrans; [apply submseteq_skip, IH|]. apply submseteq_swap.
Qed.

Lemma alternate_map_submseteq tracks l : values (alternate_map tracks l) ⊆+ l.
Proof.
  induction l as [|t l IH] using rev_ind; [done|].
  rewrite alternate_map_snoc, alternate_step_eq.
  destruct (is_alternate tracks t).
  - etrans; [exact IH|]. apply submseteq_inserts_r. done.
  - etrans; [apply values_set_submseteq|].
    rewrite (Permutation_app_comm l [t]). csimpl. by apply submseteq_skip.
Qed.

Lemma alternate_map_values_kept tracks l t :
  t ∈ values (alternate_map tracks l) -> is_alternate tracks t = false.
Proof.
  induction l as [|t0 l IH] using rev_ind; [by intros ?%elem_of_nil|].
  rewrite alternate_map_snoc, alternate_step_eq.
  destruct (is_alternate tracks t0) eqn:Halt; [done|].
  intros Hin. eapply elem_of_submseteq in Hin; [|apply values_set_submseteq].
  apply elem_of_cons in Hin as [->|Hin]; [done | by apply IH].
Qed.

(** A smaller candidate set finds no more canonical titles. *)
Lemma is_alternate_mono tracks tracks' t :
  (forall x, x ∈ tracks' -> x ∈ tracks) ->
  is_alternate tracks t = false -> is_alternate tracks' t = false.
Proof.
  intros Hsub. unfold is_alternate.
  destruct (JsString.includes (title t) "-" || JsString.includes (title t) "(");
    [|done]. cbn [andb].
  destruct (hasKeyword _ && negb (hasException _)); [|done]. cbn [andb].
  unfold matchingTrack. rewrite !find_existsb.
  intros Hf. apply not_true_is_false. intros Ht.
  apply existsb_exists in Ht as (x & Hin & Hx).
  assert (existsb
            (fun track => String.eqb (JsString.toLowerCase (title track))
               (titleBeforeSeparator (JsString.toLowerCase (title t))))
            tracks = true); [|congruence].
  apply existsb_exists. exists x. split; [|done].
  apply list_elem_of_In, Hsub, list_elem_of_In, Hin.
Qed.

End Filter.

(** ** Alternate-version filter: the claims *)

Section FilterClaims.
Import JsMap JsMapFacts JsStringFacts.

Example filter_example_3_sibling :
  removeAlternateVersions [Sample.song; Sample.song_acoustic] = [Sample.song].
Proof. vm_compute. reflexivity. Qed.

Example filter_example_3_alone :
  removeAlternateVersions [Sample.song_acoustic] = [Sample.song_acoustic].
Proof. vm_compute. reflexivity. Qed.

Example filter_example_4 :
  removeAlternateVersions [Sample.love_story; Sample.love_story_rerecorded]
  = [Sample.love_story; Sample.love_story_rerecorded].
Proof. vm_compute. reflexivity. Qed.

Example separator_example :
  separatorIndex "a - b (live)" = 2
  /\ titleBeforeSeparator "a - b (live)" = "a"
  /\ titleAfterSeparator "a - b (live)" = "b (live)".
Proof. repeat split. Qed.

Lemma removeAlternateVersions_isrc_NoDup tracks :
  NoDup (isrc <$> removeAlternateVersions tracks).
Proof.
  unfold removeAlternateVersions.
  rewrite keyed_values by apply alternate_map_well_formed.
  apply alternate_map_well_formed.
Qed.

Lemma alternate_map_restrict tracks l k :
  restrict k (alternate_map tracks l)
  = match last (filter (fun t => is_alternate tracks t = false) (group_of k l))
    with
    | Some t => [(k, t)]
    | None => []
    end.
Proof.
  induction l as [|t l IH] using rev_ind; [done|].
  rewrite alternate_map_snoc, alternate_step_eq.
  unfold group_of in *. rewrite filter_app.
  destruct (decide (isrc t = k)) as [Heq|Hne].
  - rewrite (filter_cons_True (fun t => isrc t = k)) by done.
    rewrite filter_nil, filter_app.
    destruct (is_alternate tracks t) eqn:Halt.
    + rewrite filter_cons_False by (rewrite Halt; done).
      by rewrite filter_nil, app_nil_r.
    + rewrite filter_cons_True by done. rewrite filter_nil, last_snoc.
      rewrite Heq, restrict_set_eq, IH.
      destruct (last _); csimpl; rewrite ?decide_True by done; done.
  - rewrite (filter_cons_False (fun t => isrc t = k)) by done.
    rewrite filter_nil, app_nil_r.
    destruct (is_alternate tracks t); [done|].
    by rewrite restrict_set_ne.
Qed.

(** C5, as the claim states it, fails: of two plain titles filed under one
    identifier the later overwrites the earlier, which is then missing
    although no condition for dropping it holds. *)
Lemma plain_title_overwritten :
  ~ (forall t, t ∈ [Sample.twin1; Sample.twin2] ->
       (t ∉ removeAlternateVersions [Sample.twin1; Sample.twin2]
        <-> drops_as_alternate [Sample.twin1; Sample.twin2] t = true)).
Proof.
  intros H. destruct (H Sample.twin1) as [H1 _]; [left|].
  assert (Hd : drops_as_alternate [Sample.twin1; Sample.twin2] Sample.twin1
               = true); [|vm_compute in Hd; discriminate Hd].
  apply H1. intros Hin.
  assert (Hout : removeAlternateVersions [Sample.twin1; Sample.twin2]
                 = [Sample.twin2]) by (vm_compute; reflexivity).
  rewrite Hout in Hin. apply list_elem_of_singleton in Hin. discriminate Hin.
Qed.

(** C5, amended: on an input whose identifiers are pairwise distinct (at
    most one record without identifier), as the resolver's output is, the
    filter's output is the input without the records that are dropped as
    alternates, in input order: a record is dropped exactly when its title
    has a delimiter, the trimmed suffix of the lower-cased title after the
    earliest delimiter contains a keyword and no exception, and some record
    of the input is titled, case aside, like the trimmed base. *)
Theorem removeAlternateVersions_drops_exactly (tracks : list Track) :
  NoDup (isrc <$> tracks) ->
  removeAlternateVersions tracks
  = filter (fun t => drops_as_alternate tracks t = false) tracks
  /\ forall t, t ∈ tracks ->
       (t ∉ removeAlternateVersions tracks
        <-> drops_as_alternate tracks t = true).
Proof.
  intros Hnd.
  assert (Heq : removeAlternateVersions tracks
                = filter (fun t => drops_as_alternate tracks t = false) tracks).
  { unfold removeAlternateVersions. rewrite alternate_map_distinct by done.
    apply list_filter_iff. intros t. by rewrite is_alternate_spec. }
  split; [exact Heq|]. intros t Hin. rewrite Heq, list_elem_of_filter.
  destruct (drops_as_alternate tracks t); split; try done.
  - intros _ [? _]. done.
  - intros Hn. exfalso. by apply Hn.
Qed.

Lemma removeAlternateVersions_drops_exactly_witness :
  removeAlternateVersions [Sample.song; Sample.song_acoustic]
  = filter
      (fun t =>
         drops_as_alternate [Sample.song; Sample.song_acoustic] t = false)
      [Sample.song; Sample.song_acoustic].
Proof.
  apply (removeAlternateVersions_drops_exactly
           [Sample.song; Sample.song_acoustic]).
  apply NoDup_cons. split; [|apply NoDup_singleton].
  rewrite list_elem_of_singleton. discriminate.
Defined.

(** C6, as the claim states it, fails: two kept records without identifier
    are filed under the same absent key, and the later overwrites the
    earlier. *)
Lemma identifierless_kept_records_collide :
  is_alternate [Sample.lost1; Sample.lost2] Sample.lost1 = false
  /\ is_alternate [Sample.lost1; Sample.lost2] Sample.lost2 = false
  /\ isrc Sample.lost1 = None /\ isrc Sample.lost2 = None
  /\ removeAlternateVersions [Sample.lost1; Sample.lost2] = [Sample.lost2].
Proof. repeat split; vm_compute; reflexivity. Qed.

(** C6, amended: the filter files every kept record under its identifier
    alone, the absent identifier being one key among the others, with no
    fallback to the record itself: of the kept records of one identifier,
    absent or not, the output holds the last one and no other. *)
Theorem removeAlternateVersions_keyed_by_isrc (tracks : list Track)
    (k : option string) :
  group_of k (removeAlternateVersions tracks)
  = match last (filter (fun t => is_alternate tracks t = false)
                  (group_of k tracks))
    with
    | Some t => [t]
    | None => []
    end.
Proof.
  unfold removeAlternateVersions, group_of.
  rewrite <- keyed_values_restrict by apply alternate_map_well_formed.
  rewrite alternate_map_restrict. by destruct (last _).
Qed.

(** C7: the filter is idempotent. *)
Theorem removeAlternateVersions_idempotent (tracks : list Track) :
  removeAlternateVersions (removeAlternateVersions tracks)
  = removeAlternateVersions tracks.
Proof.
  pose proof (removeAlternateVersions_isrc_NoDup tracks) as Hnd.
  unfold removeAlternateVersions at 1.
  rewrite alternate_map_distinct by done.
  apply filter_all, Forall_forall. intros t Hin.
  apply (is_alternate_mono tracks).
  - intros x Hx. eapply elem_of_submseteq; [exact Hx|].
    apply alternate_map_submseteq.
  - by apply (alternate_map_values_kept tracks tracks).
Qed.

(** C10: both operations return records of their input and nothing else.
    The resolver's output is a subsequence of its input; the filter's output
    is a sub-multiset of its input (a record occurs in the output at most as
    often as in the input). *)
Theorem outputs_are_input_records (tracks : list Track) :
  removeDuplicateTracks tracks `sublist_of` tracks
  /\ removeAlternateVersions tracks ⊆+ tracks.
Proof. split; [apply dedup_map_sublist | apply alternate_map_submseteq]. Qed.

End FilterClaims.

(** ** Paginated fetcher *)

Section FetcherFacts.
Import Fetcher.
Context {Album : Type}.
Variable getArtistAlbums : string -> Z -> Z -> option (list Album).

Abbreviation fetchAlbums := (fetchAlbums getArtistAlbums).
Abbreviation fetchAllAlbums := (fetchAllAlbums getArtistAlbums).
Abbreviation page := (page getArtistAlbums).
Abbreviation pages_from := (pages_from getArtistAlbums).

(** One loop, from page [p] on: [n] non-empty pages and then an empty one
    are [n + 1] requests; the loop returns after the empty page. *)
Lemma fetchAlbums_run (g : string) (n : nat) :
  forall (p : nat) (st : State) (fuel : nat),
    offset st = limit * Z.of_nat p ->
    (forall i, (p <= i < p + n)%nat ->
       exists items, page g i = Some items /\ items ≠ []) ->
    page g (p + n) = Some [] ->
    (n < fuel)%nat ->
    fetchAlbums fuel g st
    = Returned
        (mkState (allAlbums st ++ pages_from g p n)
           (limit * Z.of_nat (p + n))
           (requests st ++ requests_from g p n)).
Proof.
  induction n as [|n IH]; intros p st fuel Hoff Hfull Hempty Hfuel;
    (destruct fuel as [|fuel]; [lia|]); cbn [Fetcher.fetchAlbums].
  - rewrite Nat.add_0_r in Hempty. unfold Fetcher.page in Hempty.
    rewrite Hoff, Hempty. cbn [length Nat.eqb].
    unfold Fetcher.pages_from, requests_from. cbn [seq flat_map map].
    by rewrite app_nil_r, Nat.add_0_r.
  - destruct (Hfull p) as (items & Hp & Hne); [lia|].
    pose proof Hp as Hp'. unfold Fetcher.page in Hp'. rewrite Hoff, Hp'.
    destruct items as [|a items]; [done|]. cbn [length Nat.eqb].
    rewrite (IH (S p)); cbn [allAlbums offset requests].
    + f_equal. f_equal.
      * unfold Fetcher.pages_from. cbn [seq flat_map].
        rewrite Hp. cbn [default]. by rewrite <- app_assoc.
      * f_equal. lia.
      * unfold requests_from. rewrite <- app_assoc.
        by cbn [seq map app].
    + lia.
    + intros i Hi. apply Hfull. lia.
    + by replace (S p + n)%nat with (p + S n)%nat by lia.
    + lia.
Qed.

(** One loop ends, by returning or by a rejected request, once an empty
    page lies ahead. *)
Lemma fetchAlbums_ends (g : string) (n : nat) :
  forall (p : nat) (st : State) (fuel : nat),
    offset st = limit * Z.of_nat p ->
    page g (p + n) = Some [] ->
    (n < fuel)%nat ->
    fetchAlbums fuel g st ≠ OutOfFuel.
Proof.
  induction n as [|n IH]; intros p st fuel Hoff Hempty Hfuel;
    (destruct fuel as [|fuel]; [lia|]); cbn [Fetcher.fetchAlbums].
  - rewrite Nat.add_0_r in Hempty. unfold Fetcher.page in Hempty.
    by rewrite Hoff, Hempty.
  - destruct (getArtistAlbums g limit (offset st)) as [items|]; [|done].
    destruct (length items =? 0)%nat; [done|].
    apply (IH (S p)); cbn [offset]; [lia | | lia].
    by replace (S p + n)%nat with (p + S n)%nat by lia.
Qed.

Lemma elem_of_include_groups (P : string -> Prop) :
  (forall g, g ∈ include_groups -> P g) ->
  P "album" /\ P "single" /\ P "compilation" /\ P "appears_on".
Proof.
  intros H. unfold include_groups in H.
  repeat split; apply H; repeat first [by left | right].
Qed.

(** C8: in every category the loop asks for the pages at offsets 0, 49,
    98, ... one after the other, appends the items of every non-empty page
    and stops with the first empty page, the offset going back to 0 between
    categories: when [first_empty g] is the first empty page of category
    [g] and no request before it is rejected, [fetchAllAlbums] returns all
    items of the earlier pages, in category and page order, after exactly
    the requests for the pages 0 to [first_empty g] of each category. And
    whenever the service answers some page of each category with no items,
    [fetchAllAlbums] ends: from some fuel on it never runs out. *)
Theorem fetchAllAlbums_paginates_and_ends :
  (forall first_empty : string -> nat,
     (forall g, g ∈ include_groups ->
        page g (first_empty g) = Some []
        /\ forall i, (i < first_empty g)%nat ->
             exists items, page g i = Some items /\ items ≠ []) ->
     forall fuel,
       (forall g, g ∈ include_groups -> (first_empty g < fuel)%nat) ->
       fetchAllAlbums fuel
       = Returned
           (mkState
              (flat_map (fun g => pages_from g 0 (first_empty g))
                 include_groups)
              (limit * Z.of_nat (first_empty "appears_on"))
              (flat_map (fun g => requests_from g 0 (first_empty g))
                 include_groups)))
  /\ ((forall g, g ∈ include_groups -> exists n, page g n = Some []) ->
      exists fuel0, forall fuel,
        (fuel0 <= fuel)%nat -> fetchAllAlbums fuel ≠ OutOfFuel).
Proof.
  split.
  - intros first_empty Hpages fuel Hfuel.
    apply elem_of_include_groups in Hpages
      as ([Ea Fa] & [Es Fs] & [Ec Fc] & [Ep Fp]).
    apply elem_of_include_groups in Hfuel as (Ha & Hs & Hc & Hp).
    unfold Fetcher.fetchAllAlbums.
    rewrite (fetchAlbums_run "album" (first_empty "album") 0);
      [|done|intros i Hi; apply Fa; lia|done|done].
    cbn [andThen resetOffset allAlbums offset requests].
    rewrite (fetchAlbums_run "single" (first_empty "single") 0);
      [|done|intros i Hi; apply Fs; lia|done|done].
    cbn [andThen resetOffset allAlbums offset requests].
    rewrite (fetchAlbums_run "compilation" (first_empty "compilation") 0);
      [|done|intros i Hi; apply Fc; lia|done|done].
    cbn [andThen resetOffset allAlbums offset requests].
    rewrite (fetchAlbums_run "appears_on" (first_empty "appears_on") 0);
      [|done|intros i Hi; apply Fp; lia|done|done].
    cbn [resetOffset allAlbums offset requests app Nat.add].
    unfold include_groups. cbn [flat_map].
    by rewrite !app_nil_r, <- !app_assoc.
  - intros Hempty.
    apply elem_of_include_groups in Hempty
      as ([na Ea] & [ns Es] & [nc Ec] & [np Ep]).
    exists (S (na + ns + nc + np)). intros fuel Hfuel.
    unfold Fetcher.fetchAllAlbums.
    destruct (fetchAlbums fuel "album" _) as [st1| |] eqn:E1;
      cbn [andThen]; [|done|].
    2:{ exfalso. revert E1. apply (fetchAlbums_ends "album" na 0); [done|done|lia]. }
    destruct (fetchAlbums fuel "single" _) as [st2| |] eqn:E2;
      cbn [andThen]; [|done|].
    2:{ exfalso. revert E2. apply (fetchAlbums_ends "single" ns 0); [done|done|lia]. }
    destruct (fetchAlbums fuel "compilation" _) as [st3| |] eqn:E3;
      cbn [andThen]; [|done|].
    2:{ exfalso. revert E3.
        apply (fetchAlbums_ends "compilation" nc 0); [done|done|lia]. }
    apply (fetchAlbums_ends "appears_on" np 0); [done|done|lia].
Qed.

End FetcherFacts.

Lemma fetchAllAlbums_paginates_and_ends_witness :
  Fetcher.fetchAllAlbums Sample.catalogue 3
  = Fetcher.Returned
      (Fetcher.mkState
         ["album 1"; "album 2"; "album 3"; "single 1"]
         0
         [("album", 0); ("album", 49); ("album", 98);
          ("single", 0); ("single", 49);
          ("compilation", 0); ("appears_on", 0)])
  /\ exists fuel0, forall fuel,
       (fuel0 <= fuel)%nat ->
       Fetcher.fetchAllAlbums Sample.catalogue fuel ≠ Fetcher.OutOfFuel.
Proof.
  split.
  - apply (proj1 (fetchAllAlbums_paginates_and_ends Sample.catalogue)
             Sample.catalogue_first_empty).
    + intros g Hg. unfold Fetcher.include_groups in Hg.
      repeat (apply elem_of_cons in Hg as [->|Hg]);
        [| | | |by apply elem_of_nil in Hg];
        (split; [reflexivity|]); intros i Hi; vm_compute in Hi.
      * destruct i as [|[|i]]; [| |lia];
          eexists; (split; [reflexivity|discriminate]).
      * destruct i as [|i]; [|lia].
        eexists; (split; [reflexivity|discriminate]).
      * lia.
      * lia.
    + intros g Hg. unfold Fetcher.include_groups in Hg.
      repeat (apply elem_of_cons in Hg as [->|Hg]);
        [| | | |by apply elem_of_nil in Hg]; vm_compute; lia.
  - apply (proj2 (fetchAllAlbums_paginates_and_ends Sample.catalogue)).
    intros g Hg. exists (Sample.catalogue_first_empty g).
    unfold Fetcher.include_groups in Hg.
    repeat (apply elem_of_cons in Hg as [->|Hg]);
      [| | | |by apply elem_of_nil in Hg]; reflexivity.
Defined.

(** ** Chunked playlist insertion *)

Section PlaylistFacts.
Import Playlist.
Variable addTracksToPlaylist : list string -> bool.
Hypothesis accepted : forall chunk, addTracksToPlaylist chunk = true.

Abbreviation insertFrom := (insertFrom addTracksToPlaylist).

Lemma insertFrom_past_end (fuel : nat) (uris : list string) (i : Z) :
  Z.of_nat (length uris) <= i -> insertFrom fuel uris i = ([], true).
Proof.
  intros Hi. destruct fuel; cbn [Playlist.insertFrom];
    destruct (Z.ltb_spec i (Z.of_nat (length uris))); try lia; done.
Qed.

(** The loop needs no more fuel than it takes to get past the end,
    whatever the service answers. *)
Lemma insertFrom_fuel (fuel fuel' : nat) (uris : list string) :
  forall i : Z,
    0 <= i ->
    Z.of_nat (length uris) - i <= chunkSize * Z.of_nat fuel ->
    (fuel <= fuel')%nat ->
    insertFrom fuel' uris i = insertFrom fuel uris i.
Proof.
  unfold chunkSize. revert fuel'.
  induction fuel as [|fuel IH]; intros fuel' i Hi Hfuel Hle.
  - by rewrite !insertFrom_past_end by lia.
  - destruct fuel' as [|fuel']; [lia|]. cbn [Playlist.insertFrom].
    destruct (i <? Z.of_nat (length uris)); [|done].
    destruct (addTracksToPlaylist _); [|done].
    rewrite (IH fuel'); [done | | |lia]; unfold chunkSize; lia.
Qed.

Lemma length_slice (uris : list string) (i : Z) :
  0 <= i ->
  Z.of_nat (length (slice uris i (i + chunkSize)))
  = Z.max 0 (Z.min chunkSize (Z.of_nat (length uris) - i)).
Proof.
  intros Hi. unfold slice, chunkSize. rewrite length_take, length_drop. lia.
Qed.

(** The loop from index [i]: every call is accepted, the chunks put
    together are the list from [i] on, every chunk has between 1 and 100
    items, and every chunk but the last has 100. *)
Lemma insertFrom_spec (fuel : nat) (uris : list string) :
  forall i : Z,
    0 <= i ->
    Z.of_nat (length uris) - i <= chunkSize * Z.of_nat fuel ->
    (insertFrom fuel uris i).2 = true
    /\ concat (insertFrom fuel uris i).1 = drop (Z.to_nat i) uris
    /\ Forall (fun c => (0 < length c <= 100)%nat) (insertFrom fuel uris i).1
    /\ forall j c,
         (insertFrom fuel uris i).1 !! j = Some c ->
         (S j < length (insertFrom fuel uris i).1)%nat ->
         length c = 100%nat.
Proof.
  unfold chunkSize. induction fuel as [|fuel IH]; intros i Hi Hfuel.
  - rewrite insertFrom_past_end by lia. cbn [fst snd concat].
    repeat split; [|done|done]. symmetry. apply drop_ge. lia.
  - cbn [Playlist.insertFrom].
    destruct (Z.ltb_spec i (Z.of_nat (length uris))) as [Hlt|Hge].
    2:{ cbn [fst snd concat]. repeat split; [|done|done].
        symmetry. apply drop_ge. lia. }
    rewrite accepted.
    destruct (IH (i + chunkSize)) as (Hok & Hcat & Hall & Hfull);
      [unfold chunkSize; lia | unfold chunkSize; lia |].
    pose proof (length_slice uris i Hi) as Hlen. unfold chunkSize in Hlen.
    destruct (insertFrom fuel uris (i + chunkSize)) as [calls ok] eqn:Erec.
    cbn [fst snd] in *. split; [done|]. split; [|split].
    + cbn [concat]. rewrite Hcat. unfold slice, chunkSize.
      replace (Z.to_nat (i + 100 - i)) with 100%nat by lia.
      replace (Z.to_nat (i + 100)) with (Z.to_nat i + 100)%nat by lia.
      rewrite <- drop_drop. apply take_drop.
    + apply Forall_cons. split; [unfold chunkSize; lia | done].
    + intros [|j] c; cbn [lookup list_lookup length].
      * intros [= <-] Hj. unfold chunkSize at 1.
        destruct (Z.le_gt_cases (Z.of_nat (length uris)) (i + chunkSize))
          as [Hpast|Hmore]; [|unfold chunkSize in Hmore; lia].
        rewrite insertFrom_past_end in Erec by done.
        injection Erec as <- <-. cbn [length] in Hj. lia.
      * intros Hc Hj. apply (Hfull j c Hc). lia.
Qed.

End PlaylistFacts.

(** C9: when the service accepts every call, the insertion loop cuts the
    URI list into consecutive chunks, one call per chunk, each of at least
    one and at most 100 items and all but the last of exactly 100; for 250
    URIs these are three calls of 100, 100 and 50 items, in that order. *)
Theorem insertTracks_chunks (addTracksToPlaylist : list string -> bool)
    (trackUris : list string) :
  (forall chunk, addTracksToPlaylist chunk = true) ->
  let calls := (Playlist.insertTracks addTracksToPlaylist trackUris).1 in
  (Playlist.insertTracks addTracksToPlaylist trackUris).2 = true
  /\ concat calls = trackUris
  /\ Forall (fun c => (0 < length c <= 100)%nat) calls
  /\ (forall j c, calls !! j = Some c -> (S j < length calls)%nat ->
        length c = 100%nat)
  /\ (length trackUris = 250%nat -> length <$> calls = [100; 100; 50]%nat).
Proof.
  intros Hok calls.
  destruct (insertFrom_spec addTracksToPlaylist Hok (length trackUris)
              trackUris 0) as (H1 & H2 & H3 & H4);
    [lia | unfold Playlist.chunkSize; lia |].
  fold (Playlist.insertTracks addTracksToPlaylist trackUris) in H1, H2, H3, H4.
  fold calls in H2, H3, H4.
  change (drop (Z.to_nat 0) trackUris) with trackUris in H2.
  repeat split; try done.
  intros Hlen. rewrite <- H2 in Hlen. clear H2 H1.
  destruct calls as [|c0 [|c1 [|c2 [|c3 rest]]]];
    cbn [concat] in Hlen; rewrite ?length_app in Hlen; cbn [length] in Hlen.
  - lia.
  - apply Forall_cons in H3 as [? _]. lia.
  - pose proof (H4 0%nat c0 eq_refl). cbn [length] in *.
    apply Forall_cons in H3 as [? H3]. apply Forall_cons in H3 as [? _]. lia.
  - pose proof (H4 0%nat c0 eq_refl). pose proof (H4 1%nat c1 eq_refl).
    cbn [length] in *. csimpl. repeat f_equal; lia.
  - pose proof (H4 0%nat c0 eq_refl). pose proof (H4 1%nat c1 eq_refl).
    pose proof (H4 2%nat c2 eq_refl). cbn [length] in *. lia.
Qed.

Lemma insertTracks_chunks_witness :
  length <$> (Playlist.insertTracks Sample.accept_all (replicate 250 "uri")).1
  = [100; 100; 50]%nat.
Proof.
  apply (insertTracks_chunks Sample.accept_all (replicate 250 "uri"));
    [reflexivity | vm_compute; reflexivity].
Defined.

(** ** Duplicate resolver: further properties *)

Section ResolverMore.
Import JsMap JsMapFacts.
Implicit Types (m : TrackMap) (track t : Track) (tracks l : list Track).

Lemma dedup_map_distinct l :
  NoDup (isrc <$> l) -> dedup_map l = (fun t => (isrc t, t)) <$> l.
Proof.
  induction l as [|t l IH] using rev_ind; [done|].
  rewrite fmap_app, NoDup_app. csimpl. intros (Hnd & Hnin & _).
  rewrite dedup_map_snoc, fmap_app. csimpl. rewrite <- IH by done.
  destruct (dedup_step_shape (dedup_map l) t) as [[_ ->]|[Hin _]]; [done|].
  exfalso. apply dedup_map_keys in Hin. apply (Hnin _ Hin). left.
Qed.

Lemma removeDuplicateTracks_distinct l :
  NoDup (isrc <$> l) -> removeDuplicateTracks l = l.
Proof.
  intros Hnd. unfold removeDuplicateTracks, values.
  rewrite dedup_map_distinct by done.
  rewrite <- list_fmap_compose. apply list_fmap_id.
Qed.

(** A map that holds records of one identifier only has at most one
    entry. *)
Lemma dedup_map_one_group l k :
  Forall (fun t => isrc t = k) l ->
  dedup_map l = [] \/ exists t, dedup_map l = [(k, t)].
Proof.
  intros Hall.
  pose proof (removeDuplicateTracks_one_group l k Hall) as Hlen.
  destruct (dedup_map_well_formed l) as [Hk _].
  unfold removeDuplicateTracks, values in Hlen. rewrite length_fmap in Hlen.
  destruct (dedup_map l) as [|[k0 t0] [|e r]] eqn:Em;
    [by left| |cbn [length] in Hlen; lia].
  right. exists t0. apply Forall_cons in Hk as [Hk0 _]. simpl in Hk0.
  assert (Hin : t0 ∈ l).
  { eapply elem_of_sublist; [|apply dedup_map_sublist].
    unfold values. rewrite Em. left. }
  rewrite Forall_forall in Hall. rewrite Hk0, (Hall _ Hin). done.
Qed.

(** An own-album record takes the place of whatever is selected. *)
Lemma dedup_step_own_album m t :
  is_own_album t = true ->
  dedup_step m t
  = if has (isrc t) m then replace_track (isrc t) t m
    else set (isrc t) t m.
Proof.
  unfold is_own_album. intros [Hext Halb]%andb_prop.
  apply negb_true_iff in Hext. apply String.eqb_eq in Halb.
  unfold dedup_step, has. destruct (get (isrc t) m) as [p|]; [|done].
  cbn [negb]. rewrite Hext, Halb. by cbn.
Qed.

(** A selected own-album record yields only to another own-album record. *)
Lemma dedup_step_keeps_own_album m t p :
  get (isrc t) m = Some p ->
  is_own_album p = true -> is_own_album t = false ->
  dedup_step m t = m.
Proof.
  unfold is_own_album. intros Hget [Hext Halb]%andb_prop Ht.
  apply negb_true_iff in Hext. apply String.eqb_eq in Halb.
  unfold dedup_step, has. rewrite Hget, Hext, Halb. cbn [negb].
  rewrite andb_false_r. destruct (external t); [done|]. cbn [negb] in *.
  cbn [andb] in Ht. rewrite Ht. cbn.
  by repeat match goal with
     | |- context [if ?b then _ else _] => destruct b
     end.
Qed.

(** A guest appearance never takes the place of a record that is not one. *)
Lemma dedup_step_keeps_non_external m t p :
  get (isrc t) m = Some p ->
  external p = false -> external t = true ->
  dedup_step m t = m.
Proof.
  intros Hget Hp Ht. unfold dedup_step, has. by rewrite Hget, Hp, Ht.
Qed.

Lemma own_album_survives l k t :
  Forall (fun x => isrc x = k) l ->
  last (filter (fun x => is_own_album x = true) l) = Some t ->
  dedup_map l = [(k, t)].
Proof.
  induction l as [|x l IH] using rev_ind; [done|].
  rewrite Forall_app, Forall_singleton. intros [Hall Hx].
  rewrite filter_app, dedup_map_snoc.
  destruct (is_own_album x) eqn:Hown.
  - rewrite filter_cons_True by done. rewrite filter_nil, last_snoc.
    intros [= <-]. rewrite dedup_step_own_album by done. rewrite Hx.
    destruct (dedup_map_one_group l k Hall) as [->|[p ->]]; [done|].
    unfold has, replace_track. csimpl. rewrite decide_True by done.
    csimpl. by rewrite decide_True.
  - rewrite filter_cons_False by (rewrite Hown; done).
    rewrite filter_nil, app_nil_r. intros Hlast.
    rewrite (IH Hall Hlast).
    assert (Ht : is_own_album t = true).
    { apply last_Some_elem_of, list_elem_of_filter in Hlast as [? _]. done. }
    apply (dedup_step_keeps_own_album _ x t); [|done|done].
    rewrite Hx. csimpl. by rewrite decide_True.
Qed.

Lemma non_external_first_survives t0 rest k :
  Forall (fun x => isrc x = k) (t0 :: rest) ->
  external t0 = false ->
  exists t, dedup_map (t0 :: rest) = [(k, t)] /\ external t = false.
Proof.
  induction rest as [|x rest IH] using rev_ind.
  - intros Hall Hext. apply Forall_cons in Hall as [Hk _]. exists t0.
    unfold dedup_map. cbn [fold_left]. unfold dedup_step. cbn.
    by rewrite Hk.
  - rewrite app_comm_cons, Forall_app, Forall_singleton.
    intros [Hall Hx] Hext. destruct (IH Hall Hext) as (t & Hm & Ht).
    rewrite dedup_map_snoc, Hm.
    destruct (external x) eqn:Ex.
    + exists t. split; [|done].
      apply (dedup_step_keeps_non_external _ x t); [|done|done].
      rewrite Hx. csimpl. by rewrite decide_True.
    + destruct (dedup_step_shape [(k, t)] x) as [[Hnin _]|[_ [->| ->]]].
      * exfalso. apply Hnin. rewrite Hx. unfold keys. csimpl. left.
      * by exists t.
      * exists x. split; [|done]. rewrite Hx. unfold replace_track.
        csimpl. rewrite decide_True by done. csimpl. done.
Qed.

(** X1: on a list with pairwise distinct identifiers the resolver changes
    nothing. *)
Theorem removeDuplicateTracks_identity_on_distinct (tracks : list Track) :
  NoDup (isrc <$> tracks) -> removeDuplicateTracks tracks = tracks.
Proof. apply removeDuplicateTracks_distinct. Qed.

Lemma removeDuplicateTracks_identity_on_distinct_witness :
  removeDuplicateTracks [Sample.early_single; Sample.other_single]
  = [Sample.early_single; Sample.other_single].
Proof.
  apply (removeDuplicateTracks_identity_on_distinct
           [Sample.early_single; Sample.other_single]).
  apply NoDup_cons. split; [|apply NoDup_singleton].
  rewrite list_elem_of_singleton. discriminate.
Defined.

(** X2: resolving twice is resolving once. *)
Theorem removeDuplicateTracks_idempotent (tracks : list Track) :
  removeDuplicateTracks (removeDuplicateTracks tracks)
  = removeDuplicateTracks tracks.
Proof.
  apply removeDuplicateTracks_distinct.
  rewrite removeDuplicateTracks_isrc. apply dedup_map_well_formed.
Qed.

(** X3: resolution works group by group: for every identifier, the records
    of that identifier in the output are the result of resolving the records
    of that identifier alone, and there is one of them when the input has
    any. *)
Theorem removeDuplicateTracks_groupwise (tracks : list Track)
    (k : option string) :
  group_of k (removeDuplicateTracks tracks)
  = removeDuplicateTracks (group_of k tracks)
  /\ length (group_of k (removeDuplicateTracks tracks))
     = Nat.min 1 (length (group_of k tracks)).
Proof.
  split; [apply removeDuplicateTracks_group|].
  rewrite removeDuplicateTracks_group.
  apply (removeDuplicateTracks_one_group _ k).
  apply Forall_forall. by intros t [? _]%list_elem_of_filter.
Qed.

(** X4: when a recording appears on one of the artist's own albums, the
    record kept for it is the last own-album record of the input. *)
Theorem removeDuplicateTracks_prefers_latest_album (tracks : list Track)
    (k : option string) (t : Track) :
  last (filter (fun x => is_own_album x = true) (group_of k tracks)) = Some t ->
  group_of k (removeDuplicateTracks tracks) = [t].
Proof.
  intros Hlast. rewrite removeDuplicateTracks_group.
  unfold removeDuplicateTracks.
  rewrite (own_album_survives _ k t); [done| |done].
  apply Forall_forall. by intros x [? _]%list_elem_of_filter.
Qed.

Lemma removeDuplicateTracks_prefers_latest_album_witness :
  group_of (Some "ISRC-A")
    (removeDuplicateTracks
       [Sample.early_single; Sample.other_single; Sample.late_album])
  = [Sample.late_album].
Proof.
  apply (removeDuplicateTracks_prefers_latest_album
           [Sample.early_single; Sample.other_single; Sample.late_album]
           (Some "ISRC-A") Sample.late_album).
  reflexivity.
Defined.

(** X5: a guest appearance never displaces a record that is not one: when
    the first record of a recording in the input is not external, the record
    kept for that recording is not external. *)
Theorem removeDuplicateTracks_non_external_stays (tracks : list Track)
    (k : option string) (t0 : Track) (rest : list Track) :
  group_of k tracks = t0 :: rest ->
  external t0 = false ->
  exists t, group_of k (removeDuplicateTracks tracks) = [t]
            /\ external t = false.
Proof.
  intros Hgroup Hext. rewrite removeDuplicateTracks_group, Hgroup.
  destruct (non_external_first_survives t0 rest k) as (t & Hm & Ht);
    [|done|].
  - rewrite <- Hgroup. apply Forall_forall.
    by intros x [? _]%list_elem_of_filter.
  - exists t. unfold removeDuplicateTracks. by rewrite Hm.
Qed.

Lemma removeDuplicateTracks_non_external_stays_witness :
  exists t,
    group_of (Some "ISRC-C")
      (removeDuplicateTracks [Sample.own_single; Sample.guest_single]) = [t]
    /\ external t = false.
Proof.
  apply (removeDuplicateTracks_non_external_stays
           [Sample.own_single; Sample.guest_single] (Some "ISRC-C")
           Sample.own_single [Sample.guest_single]);
    reflexivity.
Defined.

End ResolverMore.

(** ** Alternate-version filter: further properties *)

Section FilterMore.
Import JsMap JsMapFacts JsString JsStringFacts.
Implicit Types (m : TrackMap) (track t : Track) (tracks l : list Track).

Lemma length_toLowerCase (s : string) :
  String.length (toLowerCase s) = String.length s.
Proof. induction s as [|c s IH]; simpl; [done|]. by rewrite IH. Qed.

Lemma length_trimStart (s : string) :
  (String.length (trimStart s) <= String.length s)%nat.
Proof.
  induction s as [|c s IH]; simpl; [done|].
  destruct (isWhiteSpace c); simpl; lia.
Qed.

Lemma length_trimEnd (s : string) :
  (String.length (trimEnd s) <= String.length s)%nat.
Proof.
  induction s as [|c s IH]; simpl; [done|].
  destruct (trimEnd s); [destruct (isWhiteSpace c)|]; simpl in *; lia.
Qed.

Lemma length_trim (s : string) :
  (String.length (trim s) <= String.length s)%nat.
Proof.
  unfold trim. etrans; [apply length_trimEnd | apply length_trimStart].
Qed.

(** The canonical title that makes a record an alternate is shorter than
    the record's own title. *)
Lemma is_alternate_shorter tracks t :
  is_alternate tracks t = true ->
  exists other, other ∈ tracks
    /\ (String.length (title other) < String.length (title t))%nat.
Proof.
  rewrite is_alternate_spec. unfold drops_as_alternate.
  intros [_ Hrest]%andb_prop.
  destruct (split_at_delimiter (toLowerCase (title t)))
    as [[base suffix]|] eqn:Hs; [|done].
  apply andb_prop in Hrest as [_ Hex].
  apply existsb_exists in Hex as (other & Hin & Heq).
  apply String.eqb_eq in Heq. exists other.
  split; [by apply list_elem_of_In|].
  rewrite <- (length_toLowerCase (title other)), Heq.
  rewrite <- (length_toLowerCase (title t)).
  destruct (split_at_delimiter_append _ _ _ Hs) as [d ->].
  rewrite length_append. pose proof (length_trim base). simpl. lia.
Qed.

Lemma exists_shortest_title l :
  l ≠ [] ->
  exists t, t ∈ l
    /\ forall x, x ∈ l ->
         (String.length (title t) <= String.length (title x))%nat.
Proof.
  induction l as [|a l IH]; [done|]. intros _.
  destruct l as [|b l].
  - exists a. split; [left|]. by intros x ->%list_elem_of_singleton.
  - destruct IH as (t & Hin & Hmin); [done|].
    destruct (decide (String.length (title a) <= String.length (title t))%nat).
    + exists a. split; [left|]. intros x [->|Hx]%elem_of_cons; [done|].
      specialize (Hmin x Hx). lia.
    + exists t. split; [by right|]. intros x [->|Hx]%elem_of_cons; [lia|].
      by apply Hmin.
Qed.

Lemma alternate_map_kept_present tracks l t :
  t ∈ l -> is_alternate tracks t = false -> alternate_map tracks l ≠ [].
Proof.
  intros Hin Hkept Hnil.
  pose proof (alternate_map_restrict tracks l (isrc t)) as Hr.
  rewrite Hnil in Hr. unfold restrict in Hr. rewrite filter_nil in Hr.
  destruct (last _) as [t'|] eqn:Hlast; [done|].
  apply last_None in Hlast.
  assert (Ht : t ∈ filter (fun t0 => is_alternate tracks t0 = false)
                     (group_of (isrc t) l)).
  { apply list_elem_of_filter. split; [done|].
    unfold group_of. by apply list_elem_of_filter. }
  rewrite Hlast in Ht. by apply elem_of_nil in Ht.
Qed.

(** X6: the filter never empties a list: of a non-empty input at least one
    record is returned, because a record with a shortest title has no
    canonical counterpart. *)
Theorem removeAlternateVersions_never_empties (tracks : list Track) :
  tracks ≠ [] -> removeAlternateVersions tracks ≠ [].
Proof.
  intros Hne. destruct (exists_shortest_title tracks Hne) as (t & Hin & Hmin).
  assert (Hkept : is_alternate tracks t = false).
  { apply not_true_is_false. intros (other & Ho & Hlt)%is_alternate_shorter.
    specialize (Hmin other Ho). lia. }
  unfold removeAlternateVersions, values. intros Hnil.
  apply fmap_nil_inv in Hnil.
  by apply (alternate_map_kept_present tracks tracks t).
Qed.

Lemma removeAlternateVersions_never_empties_witness :
  removeAlternateVersions [Sample.song_acoustic; Sample.song] ≠ [].
Proof.
  apply (removeAlternateVersions_never_empties
           [Sample.song_acoustic; Sample.song]).
  discriminate.
Defined.

(** X7: the two stages together. The filter, run on the resolver's output,
    overwrites nothing: it returns the resolved records that are not
    alternates of a resolved record, in the order of the original list, with
    pairwise distinct identifiers. *)
Theorem resolve_then_filter (tracks : list Track) :
  let resolved := removeDuplicateTracks tracks in
  removeAlternateVersions resolved
  = filter (fun t => is_alternate resolved t = false) resolved
  /\ removeAlternateVersions resolved `sublist_of` tracks
  /\ NoDup (isrc <$> removeAlternateVersions resolved).
Proof.
  intros resolved.
  assert (Heq : removeAlternateVersions resolved
                = filter (fun t => is_alternate resolved t = false) resolved).
  { unfold removeAlternateVersions. apply alternate_map_distinct.
    unfold resolved. rewrite removeDuplicateTracks_isrc.
    apply dedup_map_well_formed. }
  split; [exact Heq|]. split.
  - rewrite Heq. etrans; [apply sublist_filter | apply dedup_map_sublist].
  - unfold removeAlternateVersions.
    rewrite keyed_values by apply alternate_map_well_formed.
    apply alternate_map_well_formed.
Qed.

End FilterMore.

(** ** Paginated fetcher: further properties *)

Section FetcherMore.
Import Fetcher.
Context {Album : Type}.
Variable getArtistAlbums : string -> Z -> Z -> option (list Album).

(** One loop that returns has met [n] non-empty pages and then an empty
    one. *)
Lemma fetchAlbums_returned (g : string) (fuel : nat) :
  forall (p : nat) (st st' : State),
    offset st = limit * Z.of_nat p ->
    fetchAlbums getArtistAlbums fuel g st = Returned st' ->
    exists n,
      page getArtistAlbums g (p + n) = Some []
      /\ (forall i, (p <= i < p + n)%nat ->
            exists items, page getArtistAlbums g i = Some items /\ items ≠ [])
      /\ st' = mkState (allAlbums st ++ pages_from getArtistAlbums g p n)
                 (limit * Z.of_nat (p + n))
                 (requests st ++ requests_from g p n).
Proof.
  induction fuel as [|fuel IH]; intros p st st' Hoff; [done|].
  cbn [fetchAlbums].
  destruct (getArtistAlbums g limit (offset st)) as [items|] eqn:Hp; [|done].
  rewrite Hoff in Hp. destruct items as [|a items]; cbn [length Nat.eqb].
  - intros [= <-]. exists 0%nat. rewrite Nat.add_0_r.
    split; [exact Hp|]. split; [intros i Hi; lia|].
    unfold pages_from, requests_from. cbn [seq flat_map map].
    by rewrite app_nil_r, Hoff.
  - intros Hrun. apply (IH (S p)) in Hrun as (n & He & Hfull & ->);
      [|cbn [offset]; lia].
    exists (S n). replace (p + S n)%nat with (S p + n)%nat by lia.
    split; [exact He|]. split.
    + intros i Hi. destruct (decide (i = p)) as [->|Hne].
      * exists (a :: items). by split.
      * apply Hfull. lia.
    + cbn [allAlbums requests]. f_equal.
      * unfold pages_from. cbn [seq flat_map].
        unfold page at 2. rewrite Hp. cbn [default]. by rewrite <- app_assoc.
      * unfold requests_from. rewrite <- app_assoc. cbn [seq map app].
        by rewrite Hoff.
Qed.

Lemma fetchAlbums_all_answered (g : string) (fuel : nat) :
  forall st : State,
    all_answered getArtistAlbums st ->
    match fetchAlbums getArtistAlbums fuel g st with
    | Returned st' => all_answered getArtistAlbums st'
    | Threw st' =>
        exists earlier r,
          requests st' = earlier ++ [r]
          /\ getArtistAlbums r.1 limit r.2 = None
          /\ allAlbums st' = flat_map (answer getArtistAlbums) earlier
          /\ Forall (fun r => is_Some (getArtistAlbums r.1 limit r.2)) earlier
    | OutOfFuel => True
    end.
Proof.
  induction fuel as [|fuel IH]; intros st [Halb Hreq]; [done|].
  cbn [fetchAlbums].
  destruct (getArtistAlbums g limit (offset st)) as [items|] eqn:Hp.
  - assert (Hinv : all_answered getArtistAlbums
              (mkState (allAlbums st ++ items) (offset st + limit)
                 (requests st ++ [(g, offset st)]))).
    { split; cbn [allAlbums requests].
      - rewrite flat_map_app. cbn [flat_map]. unfold answer at 2.
        cbn [fst snd]. rewrite Hp. cbn [default]. by rewrite app_nil_r, Halb.
      - apply Forall_app. split; [done|]. apply Forall_singleton.
        cbn [fst snd]. by rewrite Hp. }
    destruct items as [|a items]; cbn [length Nat.eqb].
    + destruct Hinv as [Ha Hr]. cbn [allAlbums requests] in *.
      split; [by rewrite app_nil_r in Ha | done].
    + by apply IH.
  - exists (requests st), (g, offset st). by repeat split.
Qed.

Lemma all_answered_reset (st : State) :
  all_answered getArtistAlbums st ->
  all_answered getArtistAlbums (resetOffset st).
Proof. by intros [? ?]. Qed.


(** X8: when [fetchAllAlbums] returns, every category had a first empty
    page with only non-empty, answered pages before it, and what is returned
    are the items of those earlier pages, in category and page order, after
    the requests for the pages up to the empty one and no others. *)
Theorem fetchAllAlbums_returned (fuel : nat) (st : State) :
  fetchAllAlbums getArtistAlbums fuel = Returned st ->
  exists first_empty : string -> nat,
    (forall g, g ∈ include_groups ->
       page getArtistAlbums g (first_empty g) = Some []
       /\ forall i, (i < first_empty g)%nat ->
            exists items,
              page getArtistAlbums g i = Some items /\ items ≠ [])
    /\ st = mkState
              (flat_map
                 (fun g => pages_from getArtistAlbums g 0 (first_empty g))
                 include_groups)
              (limit * Z.of_nat (first_empty "appears_on"))
              (flat_map (fun g => requests_from g 0 (first_empty g))
                 include_groups).
Proof.
  unfold fetchAllAlbums.
  destruct (fetchAlbums _ fuel "album" _) as [s1| |] eqn:E1; [|done|done].
  cbn [andThen].
  destruct (fetchAlbums _ fuel "single" _) as [s2| |] eqn:E2; [|done|done].
  cbn [andThen].
  destruct (fetchAlbums _ fuel "compilation" _) as [s3| |] eqn:E3;
    [|done|done].
  cbn [andThen]. intros E4.
  apply (fetchAlbums_returned _ _ 0) in E1 as (na & Ea & Fa & ->); [|done].
  apply (fetchAlbums_returned _ _ 0) in E2 as (ns & Es & Fs & ->); [|done].
  apply (fetchAlbums_returned _ _ 0) in E3 as (nc & Ec & Fc & ->); [|done].
  apply (fetchAlbums_returned _ _ 0) in E4 as (np & Ep & Fp & ->); [|done].
  exists (first_empty_of na ns nc np). split.
  - intros g Hg. unfold include_groups in Hg.
    repeat (apply elem_of_cons in Hg as [->|Hg]);
      [| | | |by apply elem_of_nil in Hg];
      (split; [done|]); intros i Hi; vm_compute in Hi;
      [apply Fa|apply Fs|apply Fc|apply Fp]; lia.
  - cbn [resetOffset allAlbums offset requests app Nat.add].
    unfold include_groups. cbn [flat_map].
    by rewrite !app_nil_r, <- !app_assoc.
Qed.

(** X9: when [fetchAllAlbums] throws, the last request it made was
    rejected, every earlier request was answered, and nothing but the items
    of those answers had been collected. *)
Theorem fetchAllAlbums_threw (fuel : nat) (st : State) :
  fetchAllAlbums getArtistAlbums fuel = Threw st ->
  exists earlier r,
    requests st = earlier ++ [r]
    /\ getArtistAlbums r.1 limit r.2 = None
    /\ allAlbums st = flat_map (answer getArtistAlbums) earlier
    /\ Forall (fun r => is_Some (getArtistAlbums r.1 limit r.2)) earlier.
Proof.
  assert (H0 : all_answered getArtistAlbums (mkState [] 0 [])) by by split.
  unfold fetchAllAlbums.
  pose proof (fetchAlbums_all_answered "album" fuel _ H0) as H1.
  destruct (fetchAlbums _ fuel "album" _) as [s1|s1|]; cbn [andThen];
    [|by intros [= <-]|done].
  apply all_answered_reset in H1.
  pose proof (fetchAlbums_all_answered "single" fuel _ H1) as H2.
  destruct (fetchAlbums _ fuel "single" _) as [s2|s2|]; cbn [andThen];
    [|by intros [= <-]|done].
  apply all_answered_reset in H2.
  pose proof (fetchAlbums_all_answered "compilation" fuel _ H2) as H3.
  destruct (fetchAlbums _ fuel "compilation" _) as [s3|s3|]; cbn [andThen];
    [|by intros [= <-]|done].
  apply all_answered_reset in H3.
  pose proof (fetchAlbums_all_answered "appears_on" fuel _ H3) as H4.
  destruct (fetchAlbums _ fuel "appears_on" _) as [s4|s4|];
    [done|by intros [= <-]|done].
Qed.

End FetcherMore.

Lemma fetchAllAlbums_returned_witness :
  exists first_empty : string -> nat,
    (forall g, g ∈ Fetcher.include_groups ->
       Fetcher.page Sample.catalogue g (first_empty g) = Some []
       /\ forall i, (i < first_empty g)%nat ->
            exists items,
              Fetcher.page Sample.catalogue g i = Some items /\ items ≠ [])
    /\ Fetcher.mkState
         ["album 1"; "album 2"; "album 3"; "single 1"] 0
         [("album", 0); ("album", 49); ("album", 98);
          ("single", 0); ("single", 49);
          ("compilation", 0); ("appears_on", 0)]
       = Fetcher.mkState
           (flat_map
              (fun g => Fetcher.pages_from Sample.catalogue g 0 (first_empty g))
              Fetcher.include_groups)
           (Fetcher.limit * Z.of_nat (first_empty "appears_on"))
           (flat_map (fun g => Fetcher.requests_from g 0 (first_empty g))
              Fetcher.include_groups).
Proof.
  apply (fetchAllAlbums_returned Sample.catalogue 3).
  vm_compute. reflexivity.
Defined.


Lemma fetchAllAlbums_threw_witness :
  exists earlier r,
    [("album", 0); ("album", 49); ("single", 0)] = earlier ++ [r]
    /\ Sample.broken_catalogue r.1 Fetcher.limit r.2 = None
    /\ ["album 1"] = flat_map (Fetcher.answer Sample.broken_catalogue) earlier
    /\ Forall
         (fun r => is_Some (Sample.broken_catalogue r.1 Fetcher.limit r.2))
         earlier.
Proof.
  apply (fetchAllAlbums_threw Sample.broken_catalogue 5
           (Fetcher.mkState ["album 1"] 0
              [("album", 0); ("album", 49); ("single", 0)])).
  vm_compute. reflexivity.
Defined.

(** ** Arrays cut into chunks *)

Section ChunkFacts.
Import JsArray.
Context {A : Type}.
Variable size : Z.
Hypothesis size_pos : 0 < size.
Implicit Types (xs : list A) (j : nat).

Lemma chunk_index_in_range xs j :
  size * Z.of_nat j < Z.of_nat (length xs)
  <-> (j < Z.to_nat ((Z.of_nat (length xs) + size - 1) / size))%nat.
Proof.
  pose proof (Z.div_mod (Z.of_nat (length xs) + size - 1) size) as Hdm.
  pose proof (Z.mod_pos_bound (Z.of_nat (length xs) + size - 1) size size_pos).
  assert (0 <= (Z.of_nat (length xs) + size - 1) / size)
    by (apply Z.div_pos; lia).
  split; intros Hlt; nia.
Qed.

Lemma length_chunk_list xs :
  length (chunk_list size xs)
  = Z.to_nat ((Z.of_nat (length xs) + size - 1) / size).
Proof. unfold chunk_list. by rewrite length_map, length_seq. Qed.

Lemma chunk_list_lookup xs j c :
  chunk_list size xs !! j = Some c ->
  c = slice xs (size * Z.of_nat j) (size * Z.of_nat j + size)
  /\ size * Z.of_nat j < Z.of_nat (length xs).
Proof.
  unfold chunk_list. rewrite list_lookup_fmap.
  destruct (seq _ _ !! j) as [j'|] eqn:Hj; [|done].
  apply lookup_seq in Hj as [-> Hlt]. cbn. intros [= <-].
  split; [done|]. by apply chunk_index_in_range.
Qed.

Lemma length_slice_chunk xs j :
  Z.of_nat (length (slice xs (size * Z.of_nat j) (size * Z.of_nat j + size)))
  = Z.max 0 (Z.min size (Z.of_nat (length xs) - size * Z.of_nat j)).
Proof. unfold slice. rewrite length_take, length_drop. lia. Qed.

Lemma concat_chunks_from xs (n j : nat) :
  concat
    (map (fun j => slice xs (size * Z.of_nat j) (size * Z.of_nat j + size))
       (seq j n))
  = take (Z.to_nat (size * Z.of_nat n)) (drop (Z.to_nat (size * Z.of_nat j)) xs).
Proof.
  revert j. induction n as [|n IH]; intros j.
  { cbn [seq map concat Z.of_nat]. by rewrite Z.mul_0_r. }
  cbn [seq map concat]. rewrite IH. unfold slice.
  replace (Z.to_nat (size * Z.of_nat j + size - size * Z.of_nat j))
    with (Z.to_nat size) by lia.
  replace (Z.to_nat (size * Z.of_nat (S j)))
    with (Z.to_nat (size * Z.of_nat j) + Z.to_nat size)%nat by lia.
  rewrite <- drop_drop, take_take_drop. f_equal. lia.
Qed.

(** Put together, the chunks are the array. *)
Lemma concat_chunk_list xs : concat (chunk_list size xs) = xs.
Proof.
  unfold chunk_list. rewrite concat_chunks_from. cbn [Z.of_nat].
  rewrite Z.mul_0_r. cbn [Z.to_nat drop]. apply take_ge.
  pose proof (Z.div_mod (Z.of_nat (length xs) + size - 1) size) as Hdm.
  pose proof (Z.mod_pos_bound (Z.of_nat (length xs) + size - 1) size size_pos).
  assert (0 <= (Z.of_nat (length xs) + size - 1) / size)
    by (apply Z.div_pos; lia).
  nia.
Qed.

(** Every chunk has between one and [size] elements, and every chunk but
    the last has [size]. *)
Lemma chunk_list_sizes xs j c :
  chunk_list size xs !! j = Some c ->
  0 < Z.of_nat (length c) <= size
  /\ ((S j < length (chunk_list size xs))%nat -> Z.of_nat (length c) = size).
Proof.
  intros Hc. pose proof (lookup_lt_Some _ _ _ Hc) as Hj.
  apply chunk_list_lookup in Hc as [-> Hlt].
  rewrite length_slice_chunk. split; [lia|]. intros HS.
  rewrite length_chunk_list in HS. apply chunk_index_in_range in HS. lia.
Qed.

(** The [for] loop runs its body on the chunks of the array, in order. *)
Lemma for_chunks_from {St : Type} (body : list A -> St -> Loader.Outcome St)
    xs (fuel : nat) :
  forall j (s : St),
    (Z.to_nat ((Z.of_nat (length xs) + size - 1) / size) - j <= fuel)%nat ->
    Loader.for_chunks size body fuel xs (size * Z.of_nat j) s
    = Loader.run_chunks body (drop j (chunk_list size xs)) s.
Proof.
  induction fuel as [|fuel IH]; intros j s Hfuel.
  - assert (Hge : ~ (j < Z.to_nat ((Z.of_nat (length xs) + size - 1) / size))%nat)
      by lia.
    rewrite drop_ge by (rewrite length_chunk_list; lia).
    cbn [Loader.for_chunks].
    destruct (Z.ltb_spec (size * Z.of_nat j) (Z.of_nat (length xs)))
      as [Hlt|_]; [|done].
    apply chunk_index_in_range in Hlt. lia.
  - cbn [Loader.for_chunks].
    destruct (Z.ltb_spec (size * Z.of_nat j) (Z.of_nat (length xs)))
      as [Hlt|Hge].
    + pose proof Hlt as Hj. apply chunk_index_in_range in Hj.
      assert (Hlook : chunk_list size xs !! j
                      = Some (slice xs (size * Z.of_nat j)
                                (size * Z.of_nat j + size))).
      { unfold chunk_list. rewrite list_lookup_fmap, lookup_seq_lt by done.
        done. }
      rewrite (drop_S _ _ _ Hlook). cbn [Loader.run_chunks].
      destruct (body _ s) as [s'|e s'|]; [|done|done].
      replace (size * Z.of_nat j + size) with (size * Z.of_nat (S j)) by lia.
      apply IH. lia.
    + rewrite drop_ge; [done|]. rewrite length_chunk_list.
      destruct (decide (j < Z.to_nat ((Z.of_nat (length xs) + size - 1) / size))%nat)
        as [Hj|Hj]; [|lia].
      apply chunk_index_in_range in Hj. lia.
Qed.

Lemma for_chunks_chunk_list {St : Type}
    (body : list A -> St -> Loader.Outcome St) xs (s : St) :
  Loader.for_chunks size body (length xs) xs 0 s
  = Loader.run_chunks body (chunk_list size xs) s.
Proof.
  replace 0 with (size * Z.of_nat 0) by lia.
  rewrite for_chunks_from; [done|].
  pose proof (Z.div_mod (Z.of_nat (length xs) + size - 1) size) as Hdm.
  pose proof (Z.mod_pos_bound (Z.of_nat (length xs) + size - 1) size size_pos).
  assert (0 <= (Z.of_nat (length xs) + size - 1) / size)
    by (apply Z.div_pos; lia).
  nia.
Qed.

End ChunkFacts.

(** ** Chunked playlist insertion: further properties *)

Section PlaylistMore.
Import Playlist.
Variable addTracksToPlaylist : list string -> bool.

Lemma insertFrom_chunks (uris : list string) (fuel : nat) :
  forall j : nat,
    (Z.to_nat ((Z.of_nat (length uris) + chunkSize - 1) / chunkSize) - j
     <= fuel)%nat ->
    exists rest,
      drop j (JsArray.chunk_list chunkSize uris)
      = (insertFrom addTracksToPlaylist fuel uris (chunkSize * Z.of_nat j)).1
        ++ rest
      /\ ((insertFrom addTracksToPlaylist fuel uris
             (chunkSize * Z.of_nat j)).2 = true ->
          rest = []
          /\ Forall (fun c => addTracksToPlaylist c = true)
               (insertFrom addTracksToPlaylist fuel uris
                  (chunkSize * Z.of_nat j)).1)
      /\ ((insertFrom addTracksToPlaylist fuel uris
             (chunkSize * Z.of_nat j)).2 = false ->
          exists earlier c,
            (insertFrom addTracksToPlaylist fuel uris
               (chunkSize * Z.of_nat j)).1 = earlier ++ [c]
            /\ addTracksToPlaylist c = false
            /\ Forall (fun c => addTracksToPlaylist c = true) earlier).
Proof.
  assert (Hpos : 0 < chunkSize) by done.
  induction fuel as [|fuel IH]; intros j Hfuel.
  - exists []. cbn [insertFrom].
    destruct (Z.ltb_spec (chunkSize * Z.of_nat j) (Z.of_nat (length uris)))
      as [Hlt|Hge].
    { apply (chunk_index_in_range chunkSize Hpos) in Hlt. lia. }
    cbn [fst snd negb]. split; [|by split].
    rewrite drop_ge; [done|]. rewrite length_chunk_list. lia.
  - cbn [insertFrom].
    destruct (Z.ltb_spec (chunkSize * Z.of_nat j) (Z.of_nat (length uris)))
      as [Hlt|Hge].
    + pose proof Hlt as Hj. apply (chunk_index_in_range chunkSize Hpos) in Hj.
      assert (Hlook : JsArray.chunk_list chunkSize uris !! j
                = Some (slice uris (chunkSize * Z.of_nat j)
                          (chunkSize * Z.of_nat j + chunkSize))).
      { unfold JsArray.chunk_list.
        rewrite list_lookup_fmap, lookup_seq_lt by done. done. }
      rewrite (drop_S _ _ _ Hlook).
      destruct (addTracksToPlaylist _) eqn:Hadd.
      * replace (chunkSize * Z.of_nat j + chunkSize)
          with (chunkSize * Z.of_nat (S j)) by lia.
        destruct (IH (S j)) as (rest & Hdrop & Hok & Hko); [lia|].
        destruct (insertFrom addTracksToPlaylist fuel uris
                    (chunkSize * Z.of_nat (S j))) as [calls ok].
        cbn [fst snd] in *. exists rest. split; [by rewrite Hdrop|]. split.
        -- intros Hb. destruct (Hok Hb) as [-> Hall]. split; [done|].
           apply Forall_cons. split; [|done].
           by replace (chunkSize * Z.of_nat (S j))
             with (chunkSize * Z.of_nat j + chunkSize) by lia.
        -- intros Hb. destruct (Hko Hb) as (earlier & c & -> & Hc & Hall).
           exists (slice uris (chunkSize * Z.of_nat j)
                     (chunkSize * Z.of_nat (S j)) :: earlier), c.
           split; [done|]. split; [done|]. apply Forall_cons. split; [|done].
           by replace (chunkSize * Z.of_nat (S j))
             with (chunkSize * Z.of_nat j + chunkSize) by lia.
      * cbn [fst snd]. eexists. split; [reflexivity|]. split; [done|].
        intros _. exists [], (slice uris (chunkSize * Z.of_nat j)
                               (chunkSize * Z.of_nat j + chunkSize)).
        by repeat split.
    + exists []. cbn [fst snd]. split; [|by split].
      rewrite drop_ge; [done|]. rewrite length_chunk_list.
      destruct (decide (j < Z.to_nat ((Z.of_nat (length uris) + chunkSize - 1)
                                      / chunkSize))%nat) as [Hj|Hj]; [|lia].
      apply (chunk_index_in_range chunkSize Hpos) in Hj. lia.
Qed.

Lemma insertTracks_prefix_of_chunks (uris : list string) :
  exists rest,
    JsArray.chunk_list chunkSize uris
    = (insertTracks addTracksToPlaylist uris).1 ++ rest
    /\ ((insertTracks addTracksToPlaylist uris).2 = true ->
        rest = []
        /\ Forall (fun c => addTracksToPlaylist c = true)
             (insertTracks addTracksToPlaylist uris).1)
    /\ ((insertTracks addTracksToPlaylist uris).2 = false ->
        exists earlier c,
          (insertTracks addTracksToPlaylist uris).1 = earlier ++ [c]
          /\ addTracksToPlaylist c = false
          /\ Forall (fun c => addTracksToPlaylist c = true) earlier).
Proof.
  unfold insertTracks.
  destruct (insertFrom_chunks uris (length uris) 0) as (rest & H1 & H2 & H3).
  - pose proof (Z.div_mod (Z.of_nat (length uris) + chunkSize - 1) chunkSize).
    pose proof (Z.mod_pos_bound (Z.of_nat (length uris) + chunkSize - 1)
                  chunkSize).
    assert (0 <= (Z.of_nat (length uris) + chunkSize - 1) / chunkSize)
      by (apply Z.div_pos; unfold chunkSize; lia).
    unfold chunkSize in *. lia.
  - change (chunkSize * Z.of_nat 0) with 0 in *. cbn [drop] in H1.
    by exists rest.
Qed.

(** X10: the insertion calls are an initial part of the chunks of the URI
    list, piece [j] being [trackUris.slice(100 * j, 100 * j + 100)]. The loop
    ends well exactly when every chunk was sent and accepted; it ends badly
    exactly at the first rejected call, which is then the last call made. *)
Theorem insertTracks_stops_at_first_rejection (trackUris : list string) :
  let calls := (insertTracks addTracksToPlaylist trackUris).1 in
  let ok := (insertTracks addTracksToPlaylist trackUris).2 in
  exists rest,
    JsArray.chunk_list 100 trackUris = calls ++ rest
    /\ (ok = true ->
        rest = [] /\ Forall (fun c => addTracksToPlaylist c = true) calls)
    /\ (ok = false ->
        exists earlier c,
          calls = earlier ++ [c]
          /\ addTracksToPlaylist c = false
          /\ Forall (fun c => addTracksToPlaylist c = true) earlier).
Proof. apply insertTracks_prefix_of_chunks. Qed.

End PlaylistMore.

Lemma insertTracks_stops_at_first_rejection_witness :
  exists rest,
    JsArray.chunk_list 100 (replicate 250 "uri")
    = (Playlist.insertTracks Sample.accept_first (replicate 250 "uri")).1
      ++ rest
    /\ exists earlier c,
         (Playlist.insertTracks Sample.accept_first (replicate 250 "uri")).1
         = earlier ++ [c]
         /\ Sample.accept_first c = false
         /\ Forall (fun c => Sample.accept_first c = true) earlier.
Proof.
  destruct (insertTracks_stops_at_first_rejection Sample.accept_first
              (replicate 250 "uri")) as (rest & H1 & _ & H3).
  exists rest. split; [exact H1|]. apply H3. vm_compute. reflexivity.
Defined.

(** X11: when the service accepts every call, the calls are exactly the
    chunks of the URI list: there are [ceil(n / 100)] of them for [n] URIs,
    and put together they are the URI list. *)
Theorem insertTracks_accepted (addTracksToPlaylist : list string -> bool)
    (trackUris : list string) :
  (forall chunk, addTracksToPlaylist chunk = true) ->
  Playlist.insertTracks addTracksToPlaylist trackUris
  = (JsArray.chunk_list 100 trackUris, true)
  /\ length (JsArray.chunk_list 100 trackUris)
     = Z.to_nat ((Z.of_nat (length trackUris) + 99) / 100)
  /\ concat (JsArray.chunk_list 100 trackUris) = trackUris.
Proof.
  intros Hok. split; [|split].
  - destruct (insertTracks_prefix_of_chunks addTracksToPlaylist trackUris)
      as (rest & H1 & H2 & H3).
    destruct (Playlist.insertTracks addTracksToPlaylist trackUris)
      as [calls ok]. cbn [fst snd] in *. destruct ok.
    + destruct H2 as [-> _]; [done|]. rewrite app_nil_r in H1.
      unfold Playlist.chunkSize in H1. by rewrite H1.
    + destruct H3 as (earlier & c & _ & Hc & _); [done|].
      rewrite Hok in Hc. done.
  - rewrite length_chunk_list. do 2 f_equal. lia.
  - by apply concat_chunk_list.
Qed.

Lemma insertTracks_accepted_witness :
  Playlist.insertTracks Sample.accept_all (replicate 250 "uri")
  = (JsArray.chunk_list 100 (replicate 250 "uri"), true).
Proof.
  apply (insertTracks_accepted Sample.accept_all (replicate 250 "uri")).
  reflexivity.
Defined.

(** ** Track loader *)

Section LoaderFacts.
Import Loader.
Variable getAlbums : list string -> option (list FullAlbum.t).
Variable getTracks : list string -> option (list FullTrack.t).
Implicit Types (albumData : list AlbumData.t) (artistName : string)
  (st : State).

Lemma flatMap_albums_Some albumData artistName albums ts :
  flatMap_albums albumData artistName albums = Some ts ->
  ts = flat_map (tracks_of albumData artistName) albums
  /\ Forall (fun a => is_Some (albumTracks albumData artistName a)) albums.
Proof.
  revert ts. induction albums as [|a albums IH]; intros ts; cbn [flatMap_albums].
  - intros [= <-]. by split.
  - destruct (albumTracks albumData artistName a) as [t1|] eqn:Ha; [|done].
    destruct (flatMap_albums albumData artistName albums) as [t2|]; [|done].
    intros [= <-]. destruct (IH t2 eq_refl) as [-> Hall]. split.
    + cbn [flat_map]. f_equal. unfold tracks_of. by rewrite Ha.
    + apply Forall_cons. split; [by rewrite Ha|done].
Qed.



(** The first loop, when it returns. *)
Lemma album_batches_returned albumData artistName chunks :
  forall st st',
    run_chunks (album_batch getAlbums albumData artistName) chunks st
    = Returned st' ->
    st' = mkState
            (tracks st
             ++ flat_map (tracks_of albumData artistName)
                  (flat_map (albums_of getAlbums) chunks))
            (trackIds st
             ++ map id
                  (flat_map (tracks_of albumData artistName)
                     (flat_map (albums_of getAlbums) chunks)))
            (trackData st)
            (albumRequests st ++ map (map AlbumData.id) chunks)
            (trackRequests st)
    /\ Forall (fun c => is_Some (getAlbums (map AlbumData.id c))) chunks
    /\ Forall (fun a => is_Some (albumTracks albumData artistName a))
         (flat_map (albums_of getAlbums) chunks).
Proof.
  induction chunks as [|c chunks IH]; intros st st'; cbn [run_chunks].
  - intros [= <-]. cbn [flat_map map]. rewrite !app_nil_r.
    by destruct st.
  - unfold album_batch at 1.
    destruct (getAlbums (map AlbumData.id c)) as [albums|] eqn:Hc; [|done].
    destruct (flatMap_albums albumData artistName albums) as [ts|] eqn:Hts;
      [|done].
    apply flatMap_albums_Some in Hts as [-> Hall].
    intros (-> & Hreq & Hcb)%IH. cbn [tracks trackIds trackData albumRequests
                                       trackRequests].
    assert (Hof : albums_of getAlbums c = albums)
      by (unfold albums_of; by rewrite Hc).
    split; [|split].
    + cbn [flat_map map]. rewrite Hof, !flat_map_app, map_app.
      by rewrite <- !app_assoc.
    + apply Forall_cons. split; [by rewrite Hc|done].
    + cbn [flat_map]. rewrite Hof. by apply Forall_app.
Qed.


(** The second loop: it returns exactly when every request is answered. *)
Lemma track_batches_returned chunks :
  forall st st',
    run_chunks (track_batch getTracks) chunks st = Returned st' ->
    st' = mkState (tracks st) (trackIds st)
            (trackData st ++ flat_map (details_of getTracks) chunks)
            (albumRequests st) (trackRequests st ++ chunks)
    /\ Forall (fun c => is_Some (getTracks c)) chunks.
Proof.
  induction chunks as [|c chunks IH]; intros st st'; cbn [run_chunks].
  - intros [= <-]. cbn [flat_map]. rewrite !app_nil_r. by destruct st.
  - unfold track_batch at 1.
    destruct (getTracks c) as [details|] eqn:Hc; [|done].
    intros (-> & Hreq)%IH.
    cbn [tracks trackIds trackData albumRequests trackRequests flat_map].
    assert (Hof : details_of getTracks c = details)
      by (unfold details_of; by rewrite Hc).
    split.
    + rewrite Hof. by rewrite <- !app_assoc.
    + apply Forall_cons. split; [by rewrite Hc|done].
Qed.


Lemma run_chunks_not_out_of_fuel {A St : Type}
    (body : list A -> St -> Outcome St) (chunks : list (list A)) :
  (forall c s, body c s ≠ OutOfFuel) ->
  forall s, run_chunks body chunks s ≠ OutOfFuel.
Proof.
  intros Hbody. induction chunks as [|c chunks IH]; intros s; [done|].
  cbn [run_chunks]. specialize (Hbody c s).
  destruct (body c s); [apply IH|done|done].
Qed.

Lemma chunk_list_fmap {A B : Type} (f : A -> B) (size : Z) (xs : list A) :
  map (map f) (JsArray.chunk_list size xs) = JsArray.chunk_list size (map f xs).
Proof.
  unfold JsArray.chunk_list. rewrite length_map, map_map.
  apply map_ext. intros j. unfold JsArray.slice.
  change (map f) with (fmap (M:=list) f).
  by rewrite fmap_take, fmap_drop.
Qed.

(** The function in terms of the chunks of its two arrays. *)
Lemma getAllTrackData_chunks albumData artistName :
  getAllTrackData getAlbums getTracks albumData artistName
  = match run_chunks (album_batch getAlbums albumData artistName)
            (JsArray.chunk_list batchSize albumData) (mkState [] [] [] [] [])
    with
    | Returned st =>
        match run_chunks (track_batch getTracks)
                (JsArray.chunk_list trackBatchSize (trackIds st)) st
        with
        | Returned st' =>
            Returned
              (mkState (map (enrich (trackData st')) (tracks st'))
                 (trackIds st') (trackData st') (albumRequests st')
                 (trackRequests st'))
        | other => other
        end
    | other => other
    end.
Proof.
  unfold getAllTrackData.
  rewrite (for_chunks_chunk_list batchSize) by done.
  destruct (run_chunks (album_batch _ _ _) _ _) as [st| |]; [|done|done].
  by rewrite (for_chunks_chunk_list trackBatchSize).
Qed.





Lemma built_ids_of_state albumData artistName st :
  run_chunks (album_batch getAlbums albumData artistName)
    (JsArray.chunk_list batchSize albumData) (mkState [] [] [] [] [])
  = Returned st ->
  tracks st = built getAlbums albumData artistName
  /\ trackIds st = map id (built getAlbums albumData artistName)
  /\ trackData st = []
  /\ albumRequests st
     = JsArray.chunk_list batchSize (map AlbumData.id albumData)
  /\ trackRequests st = [].
Proof.
  intros (-> & _ & _)%album_batches_returned.
  cbn [tracks trackIds trackData albumRequests trackRequests app].
  by rewrite chunk_list_fmap.
Qed.




Lemma getAllTrackData_album_requests albumData artistName st :
  getAllTrackData getAlbums getTracks albumData artistName = Returned st ->
  albumRequests st
  = JsArray.chunk_list batchSize (map AlbumData.id albumData).
Proof.
  rewrite getAllTrackData_chunks.
  destruct (run_chunks (album_batch _ _ _) _ _) as [st1| |] eqn:E1;
    [|done|done].
  destruct (run_chunks (track_batch _) _ _) as [st2| |] eqn:E2; [|done|done].
  intros [= <-]. cbn [albumRequests].
  apply built_ids_of_state in E1 as (_ & _ & _ & Hreq & _).
  apply track_batches_returned in E2 as [-> _]. done.
Qed.

Lemma getAllTrackData_not_out_of_fuel albumData artistName :
  getAllTrackData getAlbums getTracks albumData artistName ≠ OutOfFuel.
Proof.
  rewrite getAllTrackData_chunks.
  destruct (run_chunks (album_batch _ _ _) _ _) as [st1|e1 st1|] eqn:E1;
    [|done|].
  - destruct (run_chunks (track_batch _) _ _) as [st2|e2 st2|] eqn:E2;
      [done|done|].
    exfalso. revert E2. apply run_chunks_not_out_of_fuel. intros c s.
    unfold track_batch. by destruct (getTracks c).
  - exfalso. revert E1. apply run_chunks_not_out_of_fuel. intros c s.
    unfold album_batch. destruct (getAlbums _); [|done].
    by destruct (flatMap_albums _ _ _).
Qed.

End LoaderFacts.

Section LoaderClaims.
Import Loader.
Variable getAlbums : list string -> option (list FullAlbum.t).
Variable getTracks : list string -> option (list FullTrack.t).





(** X16: [getAllTrackData] always ends, by returning or by throwing: each
    of its loops needs no more rounds than its array has elements. *)
Theorem getAllTrackData_ends (albumData : list AlbumData.t)
    (artistName : string) :
  getAllTrackData getAlbums getTracks albumData artistName ≠ OutOfFuel.
Proof. apply getAllTrackData_not_out_of_fuel. Qed.



End LoaderClaims.





(** ** Route handlers *)

Section HandlerFacts.
Import Handler.
Variable artistId : string.
Variable getArtistAlbums :
  string -> string -> Z -> Z -> option (list SimplifiedAlbum.t).
Variable getAlbums : list string -> option (list FullAlbum.t).
Variable getTracks : list string -> option (list FullTrack.t).
Variable createPlaylist : string -> string -> option string.
Variable addTracksToPlaylist : string -> list string -> bool.
Variable followArtists : list string -> bool.
Variable dateValue : string -> Z.

Abbreviation handler :=
  (createPlaylistHandler artistId getArtistAlbums getAlbums getTracks
     createPlaylist addTracksToPlaylist followArtists dateValue).

Lemma handler_path (fuel : nat) (srv : Server) :
  Path artistId getArtistAlbums getAlbums getTracks createPlaylist
    addTracksToPlaylist followArtists dateValue fuel srv (handler fuel srv).
Proof.
  unfold createPlaylistHandler, caught.
  destruct (noAccessToken srv) eqn:Htok; [by constructor|].
  destruct (Fetcher.fetchAllAlbums _ fuel) as [st|st|] eqn:Hfetch;
    [|by constructor|by constructor].
  destruct (first_artist_name _) as [artistName|] eqn:Hname;
    [|by constructor].
  destruct (Loader.getAllTrackData _ _ _ _) as [lst|e lst|] eqn:Hload.
  - destruct (createPlaylist _ _) as [pid|] eqn:Hpl.
    + pose proof (path_inserted artistId getArtistAlbums getAlbums getTracks
                    createPlaylist addTracksToPlaylist followArtists
                    dateValue fuel srv st artistName lst pid
                    Htok Hfetch Hname Hload Hpl) as Hp.
      cbv zeta in Hp.
      by destruct (Playlist.insertTracks _ _) as [calls ok].
    + by eapply path_no_playlist.
  - by eapply path_loader_threw.
  - by apply getAllTrackData_not_out_of_fuel in Hload.
Qed.


Lemma handler_never_redirects (fuel : nat) (srv : Server) :
  noAccessToken srv = false ->
  forall url, (handler fuel srv).1 ≠ Some (Redirect url).
Proof.
  intros Htok url. destruct (handler_path fuel srv); try congruence; try done.
  cbv zeta. by destruct (Playlist.insertTracks _ _).2.
Qed.

(** X17: without an access token the handler redirects to [/login] and asks
    the service for nothing; with a token it never redirects. *)
Theorem handler_login_redirect (fuel : nat) (srv : Server) :
  (noAccessToken srv = true ->
   handler fuel srv
   = (Some (Redirect "/login"), mkLog [] [] [] None [] [] []))
  /\ (noAccessToken srv = false ->
      forall url, (handler fuel srv).1 ≠ Some (Redirect url)).
Proof.
  split; intros Htok.
  - unfold createPlaylistHandler. by rewrite Htok.
  - by apply handler_never_redirects.
Qed.

(** X25: the two handlers together. A rejected authorization code leaves
    the tokens of the server as they were and sends the browser to the error
    page; an accepted one with a non-empty access token stores both tokens,
    after which [create-playlist] no longer redirects. *)
Theorem callback_then_create_playlist
    (authorizationCodeGrant : string -> option (string * string))
    (code : string) (srv : Server) (fuel : nat) :
  (authorizationCodeGrant code = None ->
   callback authorizationCodeGrant code srv
   = (Redirect "/#/error/invalid-token", srv))
  /\ (forall access_token refresh_token,
        authorizationCodeGrant code = Some (access_token, refresh_token) ->
        access_token ≠ "" ->
        callback authorizationCodeGrant code srv
        = (Send 200 (Text "<script>window.close();</script>"),
           mkServer (Some access_token) (Some refresh_token))
        /\ forall url,
             (handler fuel (callback authorizationCodeGrant code srv).2).1
             ≠ Some (Redirect url)).
Proof.
  split.
  - intros Hg. unfold callback. by rewrite Hg.
  - intros a r Hg Ha. unfold callback. rewrite Hg. split; [done|].
    cbn [snd]. apply handler_never_redirects.
    unfold noAccessToken. cbn [accessToken]. by apply String.eqb_neq.
Qed.

Lemma insert_by_date_perm a l : insert_by_date dateValue a l ≡ₚ a :: l.
Proof.
  induction l as [|b l IH]; cbn [insert_by_date]; [done|].
  destruct (_ <=? 0); [done|]. rewrite IH. apply perm_swap.
Qed.

Lemma sort_by_date_perm l : sort_by_date dateValue l ≡ₚ l.
Proof.
  induction l as [|a l IH]; cbn [sort_by_date]; [done|].
  by rewrite insert_by_date_perm, IH.
Qed.

Lemma insert_by_date_sorted a l :
  StronglySorted
    (fun x y => dateValue (SimplifiedAlbum.release_date x)
                <= dateValue (SimplifiedAlbum.release_date y)) l ->
  StronglySorted
    (fun x y => dateValue (SimplifiedAlbum.release_date x)
                <= dateValue (SimplifiedAlbum.release_date y))
    (insert_by_date dateValue a l).
Proof.
  induction 1 as [|b l Hs IH Hb]; cbn [insert_by_date].
  - apply SSorted_cons; [apply SSorted_nil | apply Forall_nil_2].
  - destruct (Z.leb_spec
                (dateValue (SimplifiedAlbum.release_date a)
                 - dateValue (SimplifiedAlbum.release_date b)) 0) as [Hle|Hgt].
    + apply SSorted_cons; [by apply SSorted_cons|].
      apply Forall_cons. split; [lia|].
      eapply Forall_impl; [exact Hb|]. intros x Hx. cbn in Hx. lia.
    + apply SSorted_cons; [exact IH|].
      rewrite insert_by_date_perm. apply Forall_cons. split; [lia|done].
Qed.

(** X18: the albums go to the loader in ascending order of release date:
    the sorted list holds the fetched albums, each as often as it was
    fetched, and no album stands before one of an earlier date. *)
Theorem albums_sorted_by_release_date (allAlbums : list SimplifiedAlbum.t) :
  sort_by_date dateValue allAlbums ≡ₚ allAlbums
  /\ StronglySorted
       (fun x y => dateValue (SimplifiedAlbum.release_date x)
                   <= dateValue (SimplifiedAlbum.release_date y))
       (sort_by_date dateValue allAlbums).
Proof.
  split; [apply sort_by_date_perm|].
  induction allAlbums as [|a l IH]; cbn [sort_by_date];
    [apply SSorted_nil | by apply insert_by_date_sorted].
Qed.

(** X19: an answer with status 200 means that the whole run went through:
    the albums were fetched, the tracks loaded for the albums in release
    order, the playlist created under the title naming the first artist of
    the first fetched album, every chunk of the URIs of the resolved and
    filtered tracks inserted and accepted, in order, and the artist followed
    once. *)
Theorem handler_created (fuel : nat) (srv : Server) (body : Body) (log : Log) :
  handler fuel srv = (Some (Send 200 body), log) ->
  body = Text "Playlist created successfully."
  /\ followCalls log = [[artistId]]
  /\ exists st artistName lst pid,
       Fetcher.fetchAllAlbums (getArtistAlbums artistId) fuel
       = Fetcher.Returned st
       /\ first_artist_name (Fetcher.allAlbums st) = Some artistName
       /\ Loader.getAllTrackData getAlbums getTracks
            (map toAlbumData (sort_by_date dateValue (Fetcher.allAlbums st)))
            artistName
          = Loader.Returned lst
       /\ concat (albumRequests log)
          = map SimplifiedAlbum.id
              (sort_by_date dateValue (Fetcher.allAlbums st))
       /\ playlistTitle log = Some (playlist_title artistName)
       /\ createPlaylist (playlist_title artistName) description = Some pid
       /\ insertCalls log
          = JsArray.chunk_list 100
              (map uri (playlist_tracks (Loader.tracks lst)))
       /\ Forall (fun c => addTracksToPlaylist pid c = true) (insertCalls log).
Proof.
  destruct (handler_path fuel srv)
    as [?|? ?|st ? ?|st ? ? ?|st artistName e lst ? ? ? ?
        |st artistName lst ? ? ? ? ?|st artistName lst pid ? Hf Hn Hl Hc];
    try (intros [= ? ?]; congruence); try (intros [= ?]; congruence).
  cbv zeta.
  destruct (insertTracks_prefix_of_chunks (addTracksToPlaylist pid)
              (map uri (playlist_tracks (Loader.tracks lst))))
    as (rest & Hchunks & Hok & _).
  destruct (Playlist.insertTracks _ _) as [calls ok]. cbn [fst snd] in *.
  destruct ok; [|intros [= ? ?]; congruence].
  intros [= <- <-]. cbn [followCalls albumRequests playlistTitle insertCalls].
  destruct Hok as [-> Hall]; [done|]. rewrite app_nil_r in Hchunks.
  split; [done|]. split; [done|]. exists st, artistName, lst, pid.
  repeat split; try done.
  rewrite (getAllTrackData_album_requests _ _ _ _ _ Hl).
  rewrite (concat_chunk_list Loader.batchSize) by done.
  rewrite map_map. by apply map_ext.
Qed.

(** X20: an answer with status 500 means that the playlist was created and
    that the last insertion call, and no earlier one, was rejected; the
    chunks sent before stay inserted, and the artist is not followed. *)
Theorem handler_insertion_rejected (fuel : nat) (srv : Server) (body : Body)
    (log : Log) :
  handler fuel srv = (Some (Send 500 body), log) ->
  body = Text "Error adding tracks to playlist"
  /\ followCalls log = []
  /\ consoleErrors log = [ErrorAddingTracks]
  /\ exists title pid earlier c,
       playlistTitle log = Some title
       /\ createPlaylist title description = Some pid
       /\ insertCalls log = earlier ++ [c]
       /\ addTracksToPlaylist pid c = false
       /\ Forall (fun c => addTracksToPlaylist pid c = true) earlier.
Proof.
  destruct (handler_path fuel srv)
    as [?|? ?|st ? ?|st ? ? ?|st artistName e lst ? ? ? ?
        |st artistName lst ? ? ? ? ?|st artistName lst pid ? Hf Hn Hl Hc];
    try (intros [= ? ?]; congruence); try (intros [= ?]; congruence).
  cbv zeta.
  destruct (insertTracks_prefix_of_chunks (addTracksToPlaylist pid)
              (map uri (playlist_tracks (Loader.tracks lst))))
    as (rest & Hchunks & _ & Hko).
  destruct (Playlist.insertTracks _ _) as [calls ok]. cbn [fst snd] in *.
  destruct ok; [intros [= ? ?]; congruence|].
  intros [= <- <-]. cbn [followCalls consoleErrors playlistTitle insertCalls].
  destruct Hko as (earlier & c & -> & Hc' & Hall); [done|].
  repeat split; try done.
  by exists (playlist_title artistName), pid, earlier, c.
Qed.

(** X21: the handler sends no status but 200, 400 and 500; with 400 the run
    stopped before any insertion: nothing was inserted, nobody was followed,
    and no playlist exists (none was asked for, or the request was
    rejected). *)
Theorem handler_bad_request (fuel : nat) (srv : Server) (status : Z)
    (body : Body) (log : Log) :
  handler fuel srv = (Some (Send status body), log) ->
  (status = 200 \/ status = 400 \/ status = 500)
  /\ (status = 400 ->
      insertCalls log = [] /\ followCalls log = []
      /\ consoleErrors log = [ErrorCaught]
      /\ forall title,
           playlistTitle log = Some title ->
           createPlaylist title description = None).
Proof.
  destruct (handler_path fuel srv)
    as [?|? ?|st ? ?|st ? ? ?|st artistName e lst ? ? ? ?
        |st artistName lst ? ? ? ? Hc|st artistName lst pid ? Hf Hn Hl Hc];
    try (intros [= ? ?]; congruence);
    try (intros [= <- <- <-]; split; [auto|]; intros _;
         cbn [insertCalls followCalls consoleErrors playlistTitle];
         repeat split; try done; intros title [= <-]; done).
  cbv zeta. destruct (Playlist.insertTracks _ _).2;
    intros [= <- <- <-]; split; auto; intros ?; lia.
Qed.

(** X22: whether following the artist works changes nothing but one line on
    the console: the answer and every request made are the same. *)
Theorem handler_ignores_follow_failure (follow' : list string -> bool)
    (fuel : nat) (srv : Server) :
  (handler fuel srv).1
  = (createPlaylistHandler artistId getArtistAlbums getAlbums getTracks
       createPlaylist addTracksToPlaylist follow' dateValue fuel srv).1
  /\ without_console (handler fuel srv).2
     = without_console
         (createPlaylistHandler artistId getArtistAlbums getAlbums getTracks
            createPlaylist addTracksToPlaylist follow' dateValue fuel srv).2.
Proof.
  unfold createPlaylistHandler, caught.
  repeat match goal with
  | |- context [match ?x with _ => _ end] =>
      lazymatch x with
      | followArtists _ => fail
      | follow' _ => fail
      | _ => destruct x
      end
  end; done.
Qed.

(** X23: for an artist with no release in any category the handler fetches
    the four empty first pages and then fails on the name of the artist:
    status 400, nothing loaded, no playlist. *)
Theorem handler_empty_catalogue (fuel : nat) (srv : Server) :
  noAccessToken srv = false ->
  (forall g, g ∈ Fetcher.include_groups ->
     getArtistAlbums artistId g Fetcher.limit 0 = Some []) ->
  (0 < fuel)%nat ->
  handler fuel srv
  = (Some (Send 400 (ErrorValue Loader.TypeError)),
     mkLog [("album", 0); ("single", 0); ("compilation", 0); ("appears_on", 0)]
       [] [] None [] [] [ErrorCaught]).
Proof.
  intros Htok Hempty Hfuel.
  apply elem_of_include_groups in Hempty as (Ha & Hs & Hc & Hp).
  unfold createPlaylistHandler. rewrite Htok.
  destruct fuel as [|fuel]; [lia|].
  unfold Fetcher.fetchAllAlbums. cbn [Fetcher.fetchAlbums Fetcher.offset].
  rewrite Ha. cbn [length Nat.eqb Fetcher.andThen Fetcher.resetOffset
                   Fetcher.offset Fetcher.allAlbums Fetcher.requests].
  rewrite Hs. cbn [length Nat.eqb Fetcher.andThen Fetcher.resetOffset
                   Fetcher.offset Fetcher.allAlbums Fetcher.requests].
  rewrite Hc. cbn [length Nat.eqb Fetcher.andThen Fetcher.resetOffset
                   Fetcher.offset Fetcher.allAlbums Fetcher.requests].
  rewrite Hp. cbn [length Nat.eqb Fetcher.andThen Fetcher.resetOffset
                   Fetcher.offset Fetcher.allAlbums Fetcher.requests].
  done.
Qed.

(** X24: with a token, the handler answers exactly when the fetch loops
    come to an end within their budget; the later stages always end. *)
Theorem handler_answers (fuel : nat) (srv : Server) :
  noAccessToken srv = false ->
  ((handler fuel srv).1 = None
   <-> Fetcher.fetchAllAlbums (getArtistAlbums artistId) fuel
       = Fetcher.OutOfFuel).
Proof.
  intros Htok.
  destruct (handler_path fuel srv)
    as [?|? Hf|st ? Hf|st ? Hf ?|st artistName e lst ? Hf ? ?
        |st artistName lst ? Hf ? ? Hc|st artistName lst pid ? Hf Hn Hl Hc];
    try congruence; try (split; [done|congruence]).
  - done.
  - cbv zeta. destruct (Playlist.insertTracks _ _).2;
      (split; [done|congruence]).
Qed.

End HandlerFacts.

Example handler_run_ok :
  Sample.run_ok
  = (Some (Handler.Send 200 (Handler.Text "Playlist created successfully.")),
     Handler.mkLog
       [("album", 0); ("album", 49); ("single", 0); ("compilation", 0);
        ("appears_on", 0); ("appears_on", 49)]
       [["a2"; "a1"]] [["t10"; "t9"]] (Some "All Artist songs")
       [["spotify:track:t9"]] [["artist-1"]]
       [Handler.ErrorFollowingArtist]).
Proof. reflexivity. Qed.

Lemma handler_login_redirect_witness :
  Handler.createPlaylistHandler Sample.artistId Sample.artist_albums
    Sample.album_service Sample.track_service Sample.new_playlist
    Sample.accept Sample.follow_fails Sample.year 3 Sample.signed_out
  = (Some (Handler.Redirect "/login"), Handler.mkLog [] [] [] None [] [] [])
  /\ (Sample.run_ok).1 ≠ Some (Handler.Redirect "/login").
Proof.
  split.
  - apply (proj1 (handler_login_redirect Sample.artistId Sample.artist_albums
                    Sample.album_service Sample.track_service
                    Sample.new_playlist Sample.accept Sample.follow_fails
                    Sample.year 3 Sample.signed_out)).
    reflexivity.
  - apply (proj2 (handler_login_redirect Sample.artistId Sample.artist_albums
                    Sample.album_service Sample.track_service
                    Sample.new_playlist Sample.accept Sample.follow_fails
                    Sample.year 3 Sample.signed_in)).
    reflexivity.
Defined.

Lemma handler_created_witness :
  Handler.followCalls (Sample.run_ok).2 = [["artist-1"]].
Proof.
  apply (handler_created Sample.artistId Sample.artist_albums
           Sample.album_service Sample.track_service Sample.new_playlist
           Sample.accept Sample.follow_fails Sample.year 3 Sample.signed_in
           (Handler.Text "Playlist created successfully.") (Sample.run_ok).2).
  vm_compute. reflexivity.
Defined.

Lemma handler_insertion_rejected_witness :
  Handler.followCalls (Sample.run_rejected).2 = []
  /\ Handler.consoleErrors (Sample.run_rejected).2
     = [Handler.ErrorAddingTracks].
Proof.
  destruct (handler_insertion_rejected Sample.artistId Sample.artist_albums
              Sample.album_service Sample.track_service Sample.new_playlist
              Sample.reject Sample.follow_fails Sample.year 3 Sample.signed_in
              (Handler.Text "Error adding tracks to playlist")
              (Sample.run_rejected).2) as (_ & H1 & H2 & _).
  - vm_compute. reflexivity.
  - by split.
Defined.

Lemma handler_bad_request_witness :
  Handler.insertCalls
    (Handler.createPlaylistHandler Sample.artistId Sample.no_albums
       Sample.album_service Sample.track_service Sample.new_playlist
       Sample.accept Sample.follow_fails Sample.year 3 Sample.signed_in).2
  = [].
Proof.
  apply (proj2 (handler_bad_request Sample.artistId Sample.no_albums
                  Sample.album_service Sample.track_service
                  Sample.new_playlist Sample.accept Sample.follow_fails
                  Sample.year 3 Sample.signed_in 400
                  (Handler.ErrorValue Loader.TypeError) _ eq_refl)).
  reflexivity.
Defined.

Lemma handler_empty_catalogue_witness :
  Handler.createPlaylistHandler Sample.artistId Sample.no_albums
    Sample.album_service Sample.track_service Sample.new_playlist
    Sample.accept Sample.follow_fails Sample.year 1 Sample.signed_in
  = (Some (Handler.Send 400 (Handler.ErrorValue Loader.TypeError)),
     Handler.mkLog
       [("album", 0); ("single", 0); ("compilation", 0); ("appears_on", 0)]
       [] [] None [] [] [Handler.ErrorCaught]).
Proof.
  apply (handler_empty_catalogue Sample.artistId Sample.no_albums
           Sample.album_service Sample.track_service Sample.new_playlist
           Sample.accept Sample.follow_fails Sample.year 1 Sample.signed_in);
    [reflexivity | intros g _; reflexivity | lia].
Defined.

Lemma handler_answers_witness :
  (Handler.createPlaylistHandler Sample.artistId Sample.artist_albums
     Sample.album_service Sample.track_service Sample.new_playlist
     Sample.accept Sample.follow_fails Sample.year 1 Sample.signed_in).1
  = None.
Proof.
  apply (handler_answers Sample.artistId Sample.artist_albums
           Sample.album_service Sample.track_service Sample.new_playlist
           Sample.accept Sample.follow_fails Sample.year 1 Sample.signed_in);
    reflexivity.
Defined.

Lemma callback_then_create_playlist_witness :
  Handler.callback (fun _ => None) "code" Sample.signed_out
  = (Handler.Redirect "/#/error/invalid-token", Sample.signed_out)
  /\ (Handler.createPlaylistHandler Sample.artistId Sample.artist_albums
        Sample.album_service Sample.track_service Sample.new_playlist
        Sample.accept Sample.follow_fails Sample.year 3
        (Handler.callback (fun _ => Some ("token", "refresh")) "code"
           Sample.signed_out).2).1
     ≠ Some (Handler.Redirect "/login").
Proof.
  split.
  - apply (proj1 (callback_then_create_playlist Sample.artistId
                    Sample.artist_albums Sample.album_service
                    Sample.track_service Sample.new_playlist Sample.accept
                    Sample.follow_fails Sample.year (fun _ => None) "code"
                    Sample.signed_out 3)).
    reflexivity.
  - apply (proj2 (callback_then_create_playlist Sample.artistId
                    Sample.artist_albums Sample.album_service
                    Sample.track_service Sample.new_playlist Sample.accept
                    Sample.follow_fails Sample.year
                    (fun _ => Some ("token", "refresh")) "code"
                    Sample.signed_out 3) "token" "refresh");
      [reflexivity | discriminate].
Defined.
